(** * The CouchDbSource reconciler

    A shallow embedding of [reconciler.Reconciler] (package [reconciler] of the
    CouchDB source): [ReconcileKind], [createReceiveAdapter],
    [reconcileEventTypes], [getEventTypes], [makeEventTypes], [computeDiff],
    [asMap], [keyFromEventType], [podSpecChanged] and [makeEventSource].

    Go values are modelled as follows.
    - [string] is [string]; a Go map with string keys is a [gmap string _].
    - [error] is the inductive [error]; a nil error is [None].
    - A call that returns [(value, err)] and whose value the reconciler reads
      only when [err == nil] returns a sum; a call whose pair is handed on
      untouched returns the pair.
    - The [*Destination] held by the Source and the [*ObjectReference] held by
      a Destination are pointers into a [Heap], so that [DeepCopy] and the
      writes through the copy are distinguishable from writes through the
      original.
    - The cluster (clientsets, listers, sink resolver) is an interface, the
      class [Collaborators]; every call on it is recorded, in order, together
      with the status updates of the Source and the recorder's events.
    - Logger calls have no effect on any result and are left out. *)

From Stdlib Require Import Ascii.
From stdpp Require Import base option list gmap strings fin_maps.

Open Scope string_scope.
Open Scope list_scope.

(** ** Errors *)

(** The error values the reconciler builds or is handed: plain errors
    ([fmt.Errorf]), API status errors with their reason ([apierrors]), and the
    tagged events of [pkgreconciler] ([ReconcileKind] returns a
    [pkgreconciler.Event], which is an [error]). *)
Inductive error : Type :=
| PlainError (msg : string)
| StatusError (reason : string) (msg : string)
| ReconcilerEventError (eventtype reason msg : string).

#[global] Instance error_eq_dec : EqDecision error.
Proof. solve_decision. Defined.

(** [err.Error()] *)
Definition Error (e : error) : string :=
  match e with
  | PlainError msg => msg
  | StatusError _ msg => msg
  | ReconcilerEventError _ _ msg => msg
  end.

(** What the verb [%v] prints for an error value; a nil error prints as
    [<nil>]. *)
Definition fmtV (err : option error) : string :=
  match err with
  | None => "<nil>"
  | Some e => Error e
  end.

(** [fmt.Errorf(prefix + "%v", err)] *)
Definition Errorf (msg : string) : error := PlainError msg.

(** [apierrors.IsNotFound]: the reason of the error is [NotFound]. *)
Definition IsNotFound (err : option error) : bool :=
  match err with
  | Some (StatusError reason _) => bool_decide (reason = "NotFound")
  | _ => false
  end.

(** ** Event types *)

(** [eventingv1alpha1.EventTypeSpec] *)
Record EventTypeSpec : Type := mkEventTypeSpec {
  Type_ : string;
  Source_ : string;
  Schema : string;
  Broker : string;
  Description : string;
}.

#[global] Instance EventTypeSpec_eq_dec : EqDecision EventTypeSpec.
Proof. solve_decision. Defined.

(** [eventingv1alpha1.EventType]: the object's name and namespace, the UID of
    its controlling owner reference, and its spec. *)
Record EventType : Type := mkEventType {
  etName : string;
  etNamespace : string;
  etController : option string;
  etSpec : EventTypeSpec;
}.

#[global] Instance EventType_eq_dec : EqDecision EventType.
Proof. solve_decision. Defined.

(** [equality.Semantic.DeepEqual] on two [EventTypeSpec]s: the fields are
    strings, so it is equality of the records. *)
Definition DeepEqualSpec (a b : EventTypeSpec) : bool := bool_decide (a = b).

(** [keyFromEventType]:
    [fmt.Sprintf("%s_%s_%s_%s", Spec.Type, Spec.Source, Spec.Schema, Spec.Broker)] *)
Definition keyFromEventType (eventType : EventType) : string :=
  Type_ (etSpec eventType) +:+ "_" +:+ Source_ (etSpec eventType) +:+ "_" +:+
  Schema (etSpec eventType) +:+ "_" +:+ Broker (etSpec eventType).

(** [asMap]: the loop overwrites the entry of a key that comes again. *)
Definition asMap (eventTypes : list EventType) (keyFunc : EventType → string)
  : gmap string EventType :=
  foldl (λ eventTypesAsMap eventType,
           <[keyFunc eventType := eventType]> eventTypesAsMap) ∅ eventTypes.

(** [computeDiff]: the first loop runs over [expected], the second over
    [current]; the pair returned is [(toCreate, toDelete)]. *)
Definition computeDiff (current expected : list EventType)
  : list EventType * list EventType :=
  let currentMap := asMap current keyFromEventType in
  let expectedMap := asMap expected keyFromEventType in
  let '(toCreate, toDelete) :=
    foldl (λ '(toCreate, toDelete) e,
             match currentMap !! keyFromEventType e with
             | None => (toCreate ++ [e], toDelete)
             | Some c =>
                 if negb (DeepEqualSpec (etSpec e) (etSpec c))
                 then (toCreate ++ [e], toDelete ++ [c])
                 else (toCreate, toDelete)
             end) ([], []) expected in
  let toDelete :=
    foldl (λ toDelete c,
             match expectedMap !! keyFromEventType c with
             | None => toDelete ++ [c]
             | Some _ => toDelete
             end) toDelete current in
  (toCreate, toDelete).

(** The record that stands for key [k] in [current]: the last one with that
    key. *)
Definition currentRecord (current : list EventType) (k : string) : option EventType :=
  last (filter (λ c, keyFromEventType c = k) current).

(** The four-tuple (type, source, schema, broker) of a record. *)
Definition key4 (e : EventType) : string * string * string * string :=
  (Type_ (etSpec e), Source_ (etSpec e), Schema (etSpec e), Broker (etSpec e)).

(** Whether the first loop of [computeDiff] creates [e], and what it deletes
    for it. *)
Definition creates (m : gmap string EventType) (e : EventType) : bool :=
  match m !! keyFromEventType e with
  | None => true
  | Some c => negb (DeepEqualSpec (etSpec e) (etSpec c))
  end.

Definition replaces (m : gmap string EventType) (e : EventType) : option EventType :=
  match m !! keyFromEventType e with
  | None => None
  | Some c => if negb (DeepEqualSpec (etSpec e) (etSpec c)) then Some c else None
  end.

(** The diff as the specification words it, keyed by the four-tuple: what
    [toCreate] and [toDelete] hold for [current] and [desired]. *)
Definition diffByFourTuple (current desired toCreate toDelete : list EventType) : Prop :=
  (∀ e, e ∈ toCreate ↔
        e ∈ desired ∧
        (key4 e ∉ key4 <$> current ∨
         ∃ c, c ∈ current ∧ key4 c = key4 e ∧ etSpec e ≠ etSpec c)) ∧
  (∀ c, c ∈ toDelete ↔
        c ∈ current ∧
        (key4 c ∉ key4 <$> desired ∨
         ∃ e, e ∈ desired ∧ key4 e = key4 c ∧ etSpec e ≠ etSpec c)).

(** A string without the separator of [keyFromEventType]. *)
Fixpoint separatorFree (s : string) : bool :=
  match s with
  | EmptyString => true
  | String a s => negb (Ascii.eqb a "_"%char) && separatorFree s
  end.

(** A record whose type, source and schema hold no separator: its key can be
    split into the four fields again. *)
Definition keySplits (e : EventType) : Prop :=
  separatorFree (Type_ (etSpec e)) = true ∧
  separatorFree (Source_ (etSpec e)) = true ∧
  separatorFree (Schema (etSpec e)) = true.

(** ** Objects of the cluster API *)

(** [corev1.ObjectReference] *)
Record ObjectReference : Type := mkObjectReference {
  orKind : string;
  orNamespace : string;
  orName : string;
  orAPIVersion : string;
}.

(** [duckv1beta1.Destination]. [P] is what the field [Ref] holds: a pointer
    ([loc]) in the object itself, the [ObjectReference] it points to in the
    value read through the pointers. *)
Record Destination (P : Type) : Type := mkDestination {
  Ref : option P;
  URI : option string;
  DeprecatedAPIVersion : string;
  DeprecatedKind : string;
  DeprecatedName : string;
  DeprecatedNamespace : string;
}.
Arguments mkDestination {P}.
Arguments Ref {P}.
Arguments URI {P}.
Arguments DeprecatedAPIVersion {P}.
Arguments DeprecatedKind {P}.
Arguments DeprecatedName {P}.
Arguments DeprecatedNamespace {P}.

(** Pointers. *)
Abbreviation loc := positive.

(** The part of the Go heap the reconciler writes to. *)
Record Heap : Type := mkHeap {
  dests : gmap positive (Destination loc);
  refs : gmap positive ObjectReference;
}.

(** [corev1.Secret] *)
Record Secret : Type := mkSecret {
  secretName : string;
  secretNamespace : string;
  Data : gmap string string;
}.

(** [v1alpha1.CouchDbSourceSpec] *)
Record CouchDbSourceSpec : Type := mkCouchDbSourceSpec {
  ServiceAccountName : string;
  CouchDbCredentials : ObjectReference;
  Feed : string;
  Database : string;
  Sink : option loc;
}.

(** The types of other packages that the reconciler only hands on, or of
    which it reads one field. *)
Class Types : Type := {
  CouchDbSourceStatus : Type;
  EnvVar : Type;
  EnvVar_eq_dec :: EqDecision EnvVar;
  Container : Type;
  Env : Container → list EnvVar;
  PodSpec : Type;
  Containers : PodSpec → list Container;
  DeploymentRest : Type;
  URL : Type;
}.

Section Reconciler.

Context {T : Types}.

(** [v1alpha1.CouchDbSource] *)
Record CouchDbSource : Type := mkCouchDbSource {
  Name : string;
  Namespace : string;
  UID : string;
  Spec : CouchDbSourceSpec;
  Status : CouchDbSourceStatus;
}.

(** [appsv1.Deployment]: name, namespace, the UID of the controlling owner
    reference, [Spec.Template.Spec], and the rest. *)
Record Deployment : Type := mkDeployment {
  dName : string;
  dNamespace : string;
  dController : option string;
  dPodSpec : PodSpec;
  dRest : DeploymentRest;
}.

(** [metav1.IsControlledBy]: the object has a controlling owner reference and
    its UID is the owner's. *)
Definition IsControlledBy (controller : option string) (owner : CouchDbSource) : bool :=
  bool_decide (controller = Some (UID owner)).

(** [resources.ReceiveAdapterArgs] *)
Record ReceiveAdapterArgs : Type := mkReceiveAdapterArgs {
  raEventSource : string;
  raImage : string;
  raSource : CouchDbSource;
  raLabels : gmap string string;
  raSinkURI : string;
}.

(** [resources.EventTypeArgs] *)
Record EventTypeArgs : Type := mkEventTypeArgs {
  etaSrc : CouchDbSource;
  etaType : string;
  etaSource : string;
}.

(** The methods of [CouchDbSourceStatus] that [ReconcileKind] calls. *)
Inductive StatusOp : Type :=
| InitializeConditions
| MarkNoSink (reason message : string)
| MarkSink (uri : string)
| MarkSinkWarnRefDeprecated (uri : string)
| PropagateDeploymentAvailability (d : option Deployment)
| MarkNoEventTypes (reason message : string)
| MarkEventTypes.

(** What the reconciler does to the world outside, in the order it does it;
    a call on the cluster is recorded with the error it returned. *)
Inductive Action : Type :=
| StatusCall (op : StatusOp)
| ResolveCall (dest : Destination ObjectReference) (err : option error)
| SecretsGet (namespace name : string) (err : option error)
| DeploymentsGet (namespace name : string) (err : option error)
| DeploymentsCreate (namespace : string) (d : Deployment) (err : option error)
| DeploymentsUpdate (namespace : string) (d : Deployment) (err : option error)
| EventTypesList (namespace : string) (selector : gmap string string) (err : option error)
| EventTypesDelete (namespace name : string) (err : option error)
| EventTypesCreate (namespace : string) (eventType : EventType) (err : option error)
| RecorderEvent (eventtype reason message : string).

(** The functions of other packages that the reconciler calls: they read
    their arguments (through the pointers too, hence the heap) and return. *)
Class Externals : Type := {
  GetRef : option (Destination ObjectReference) → option ObjectReference;
  Labels : string → gmap string string;
  MakeReceiveAdapter : ReceiveAdapterArgs → Heap → Deployment;
  MakeEventType : EventTypeArgs → Heap → EventType;
  urlParse : string → URL + error;
  Hostname : URL → string;
  quote : string → string;
  DeepDerivative : PodSpec → PodSpec → bool;
  CouchDbSourceUpdateEventType : string;
  CouchDbSourceDeleteEventType : string;
  applyStatus : StatusOp → CouchDbSourceStatus → CouchDbSourceStatus;
}.

(** The struct [Reconciler]: the image of the receive adapter, and the
    clientsets, the lister and the sink resolver as functions on the state of
    the cluster they talk to. *)
Class Reconciler : Type := {
  Cluster : Type;
  receiveAdapterImage : string;
  URIFromDestination :
    Destination ObjectReference → CouchDbSource → Heap → Cluster → (string + error) * Cluster;
  secretsGet : string → string → Cluster → (Secret + error) * Cluster;
  deploymentsGet : string → string → Cluster → (Deployment + error) * Cluster;
  deploymentsCreate :
    string → Deployment → Cluster → (option Deployment * option error) * Cluster;
  deploymentsUpdate :
    string → Deployment → Cluster → (option Deployment * option error) * Cluster;
  eventTypesList :
    string → gmap string string → Cluster → (list EventType + error) * Cluster;
  eventTypesDelete : string → string → Cluster → option error * Cluster;
  eventTypesCreate :
    string → EventType → Cluster → (option EventType * option error) * Cluster;
}.

Context {X : Externals} {r : Reconciler}.

(** ** The reconciler's computations *)

Record World : Type := mkWorld {
  heap : Heap;
  cluster : Cluster;
}.

(** A computation returns its result, the world it leaves, and the actions it
    performed. *)
Definition M (A : Type) : Type := World → A * World * list Action.

#[export] Instance M_ret : MRet M := λ A a w, (a, w, []).

#[export] Instance M_bind : MBind M := λ A B k m w,
  let '(a, w1, t1) := m w in
  let '(b, w2, t2) := k a w1 in
  (b, w2, t1 ++ t2).

Definition emit (a : Action) : M unit := λ w, (tt, w, [a]).

(** A call on the cluster, recorded by [a] with what it returned. *)
Definition call {R : Type} (a : R → Action) (f : Cluster → R * Cluster) : M R := λ w,
  let '(res, k) := f (cluster w) in (res, mkWorld (heap w) k, [a res]).

(** The error of a result [(value, err)] of which one side only is set. *)
Definition errOf {A : Type} (got : A + error) : option error :=
  match got with
  | inl _ => None
  | inr err => Some err
  end.

Definition getHeap : M Heap := λ w, (heap w, w, []).

Definition putHeap (h : Heap) : M unit := λ w, (tt, mkWorld h (cluster w), []).

(** *** Pointers *)

Definition zeroObjectReference : ObjectReference := mkObjectReference "" "" "" "".

Definition zeroDestination {P : Type} : Destination P := mkDestination None None "" "" "" "".

Definition loadDest (h : Heap) (p : loc) : Destination loc :=
  default zeroDestination (dests h !! p).

Definition loadRef (h : Heap) (p : loc) : ObjectReference :=
  default zeroObjectReference (refs h !! p).

Definition storeDest (p : loc) (d : Destination loc) (h : Heap) : Heap :=
  mkHeap (<[p := d]> (dests h)) (refs h).

Definition storeRef (p : loc) (o : ObjectReference) (h : Heap) : Heap :=
  mkHeap (dests h) (<[p := o]> (refs h)).

(** [new(Destination)] and [new(corev1.ObjectReference)] followed by the
    assignment of the value. *)
Definition newDest (d : Destination loc) (h : Heap) : loc * Heap :=
  let p := fresh (dom (dests h)) in (p, storeDest p d h).

Definition newRef (o : ObjectReference) (h : Heap) : loc * Heap :=
  let p := fresh (dom (refs h)) in (p, storeRef p o h).

(** The value of a Destination with its [Ref] read through the pointer. *)
Definition readDest (h : Heap) (p : loc) : Destination ObjectReference :=
  let d := loadDest h p in
  mkDestination (loadRef h <$> Ref d) (URI d) (DeprecatedAPIVersion d) (DeprecatedKind d)
    (DeprecatedName d) (DeprecatedNamespace d).

(** [Destination.DeepCopy] on a non-nil receiver: a new Destination that
    holds the fields of the old one, and a new ObjectReference when the old one
    holds one. *)
Definition DeepCopy (p : loc) (h : Heap) : loc * Heap :=
  let d := loadDest h p in
  match Ref d with
  | Some o =>
      let '(o', h1) := newRef (loadRef h o) h in
      newDest (mkDestination (Some o') (URI d) (DeprecatedAPIVersion d) (DeprecatedKind d)
                 (DeprecatedName d) (DeprecatedNamespace d)) h1
  | None => newDest d h
  end.

(** [source.Spec.Sink.GetRef()] *)
Definition sinkRef (h : Heap) (src : CouchDbSource) : option ObjectReference :=
  GetRef (readDest h <$> Sink (Spec src)).


(** *** Constants *)

Definition couchdbsourceDeploymentCreated : string := "CouchDbSourceDeploymentCreated".
Definition couchdbsourceDeploymentUpdated : string := "CouchDbSourceDeploymentUpdated".
Definition EventTypeNormal : string := "Normal".

Definition couchDbEventTypes : list string :=
  [CouchDbSourceUpdateEventType; CouchDbSourceDeleteEventType].

(** *** Status *)

(** A call of a method of [source.Status]. *)
Definition status (op : StatusOp) (source : CouchDbSource) : M CouchDbSource :=
  emit (StatusCall op);;
  mret (mkCouchDbSource (Name source) (Namespace source) (UID source) (Spec source)
          (applyStatus op (Status source))).

(** *** [makeEventSource] *)

Definition makeEventSource (src : CouchDbSource) : M (string * option error) :=
  let namespace := orNamespace (CouchDbCredentials (Spec src)) in
  let namespace := if bool_decide (namespace = "") then Namespace src else namespace in
  got ← call (λ got, SecretsGet namespace (orName (CouchDbCredentials (Spec src))) (errOf got))
             (secretsGet namespace (orName (CouchDbCredentials (Spec src))));
  match got with
  | inr err => mret ("", Some err)
  | inl secret =>
      let err : option error := None in
      match Data secret !! "url" with
      | None => mret ("", err)
      | Some rawurl =>
          match urlParse rawurl with
          | inr err => mret ("", Some err)
          | inl url => mret (Hostname url +:+ "/" +:+ Database (Spec src), None)
          end
      end
  end.

(** *** [podSpecChanged] *)

(** [equality.Semantic.DeepEqual] on two slices of [corev1.EnvVar]: a nil and
    an empty slice are equal, and both are the empty list here. *)
Definition DeepEqualEnv (a b : list EnvVar) : bool := bool_decide (a = b).

Definition podSpecChanged (oldPodSpec newPodSpec : PodSpec) : bool :=
  if negb (DeepDerivative newPodSpec oldPodSpec) then true
  else if negb (bool_decide (length (Containers oldPodSpec) = length (Containers newPodSpec)))
  then true
  else
    (* for i := range newPodSpec.Containers; both slices have an index i,
       the lengths being equal *)
    existsb (λ i, match Containers newPodSpec !! i, Containers oldPodSpec !! i with
                  | Some n, Some o => negb (DeepEqualEnv (Env n) (Env o))
                  | _, _ => false
                  end)
      (seq 0 (length (Containers newPodSpec))).

(** *** [createReceiveAdapter] *)

(** [r.Recorder.Eventf(src, eventtype, reason, message)] *)
Definition Eventf (eventtype reason message : string) : M unit :=
  emit (RecorderEvent eventtype reason message).

Definition createReceiveAdapter (src : CouchDbSource) (sinkURI : string)
  : M (option Deployment * option error) :=
  '(eventSource, err) ← makeEventSource src;
  match err with
  | Some err => mret (None, Some err)
  | None =>
      h ← getHeap;
      let adapterArgs :=
        mkReceiveAdapterArgs eventSource receiveAdapterImage src (Labels (Name src)) sinkURI in
      let expected := MakeReceiveAdapter adapterArgs h in
      got ← call (λ got, DeploymentsGet (Namespace src) (dName expected) (errOf got))
                 (deploymentsGet (Namespace src) (dName expected));
      match got with
      | inr err =>
          if IsNotFound (Some err) then
            '(ra, err) ← call (λ res, DeploymentsCreate (Namespace src) expected res.2)
                              (deploymentsCreate (Namespace src) expected);
            Eventf EventTypeNormal couchdbsourceDeploymentCreated
              ("Deployment created, error: " +:+ fmtV err);;
            mret (ra, err)
          else
            mret (None, Some (Errorf ("error getting receive adapter: " +:+ Error err)))
      | inl ra =>
          if negb (IsControlledBy (dController ra) src) then
            mret (None, Some (Errorf ("deployment " +:+ quote (dName ra) +:+
                                      " is not owned by CouchDbSource " +:+ quote (Name src))))
          else if podSpecChanged (dPodSpec ra) (dPodSpec expected) then
            let ra := mkDeployment (dName ra) (dNamespace ra) (dController ra)
                        (dPodSpec expected) (dRest ra) in
            '(ra, err) ← call (λ res, DeploymentsUpdate (Namespace src) ra res.2)
                              (deploymentsUpdate (Namespace src) ra);
            match err with
            | Some err => mret (ra, Some err)
            | None =>
                Eventf EventTypeNormal couchdbsourceDeploymentUpdated "Deployment updated";;
                mret (ra, None)
            end
          else
            mret (Some ra, None)
      end
  end.

(** *** Event types *)

Definition getLabelSelector (src : CouchDbSource) : gmap string string := Labels (Name src).

Definition getEventTypes (src : CouchDbSource) : M (list EventType * option error) :=
  got ← call (λ got, EventTypesList (Namespace src) (getLabelSelector src) (errOf got))
             (eventTypesList (Namespace src) (getLabelSelector src));
  match got with
  | inr err => mret ([], Some err)
  | inl etl =>
      mret (foldl (λ eventTypes et,
                     if IsControlledBy (etController et) src then eventTypes ++ [et]
                     else eventTypes) [] etl, None)
  end.

Definition makeEventTypes (src : CouchDbSource) : M (list EventType * option error) :=
  h ← getHeap;
  match sinkRef h src with
  | None => mret ([], None)
  | Some ref =>
      if negb (bool_decide (orKind ref = "Broker")) then mret ([], None)
      else
        '(source, err) ← makeEventSource src;
        match err with
        | Some err => mret ([], Some err)
        | None =>
            mret (foldl (λ eventTypes apiEventType,
                           eventTypes ++ [MakeEventType (mkEventTypeArgs src apiEventType source) h])
                    [] couchDbEventTypes, None)
        end
  end.

(** The loop over [toDelete]: [Some err] when it returns from
    [reconcileEventTypes] with [err], [None] when it runs to its end. *)
Fixpoint deleteEventTypes (namespace : string) (toDelete : list EventType) : M (option error) :=
  match toDelete with
  | [] => mret None
  | eventType :: toDelete =>
      err ← call (EventTypesDelete namespace (etName eventType))
                 (eventTypesDelete namespace (etName eventType));
      match err with
      | Some err => mret (Some err)
      | None => deleteEventTypes namespace toDelete
      end
  end.

(** The loop over [toCreate], likewise. *)
Fixpoint createEventTypes (namespace : string) (toCreate : list EventType) : M (option error) :=
  match toCreate with
  | [] => mret None
  | eventType :: toCreate =>
      '(_, err) ← call (λ res, EventTypesCreate namespace eventType res.2)
                       (eventTypesCreate namespace eventType);
      match err with
      | Some err => mret (Some err)
      | None => createEventTypes namespace toCreate
      end
  end.

Definition reconcileEventTypes (src : CouchDbSource) : M (option error) :=
  '(current, err) ← getEventTypes src;
  match err with
  | Some err => mret (Some err)
  | None =>
      '(expected, err) ← makeEventTypes src;
      match err with
      | Some err => mret (Some err)
      | None =>
          let '(toCreate, toDelete) := computeDiff current expected in
          err ← deleteEventTypes (Namespace src) toDelete;
          match err with
          | Some err => mret (Some err)
          | None =>
              err ← createEventTypes (Namespace src) toCreate;
              match err with
              | Some err => mret (Some err)
              | None =>
                  (* [return err]: every assignment that left [err] non-nil
                     has returned *)
                  mret None
              end
          end
      end
  end.

(** *** [ReconcileKind] *)

(** The lines of [ReconcileKind] that make [dest]: the deep copy of the sink,
    and the namespace of the Source written into the copy where the copy has
    none. *)
Definition sinkDestination (sink : loc) (namespace : string) (h : Heap) : loc * Heap :=
  let '(dest, h) := DeepCopy sink h in
  (dest,
   match Ref (loadDest h dest) with
   | Some ref =>
       let o := loadRef h ref in
       if bool_decide (orNamespace o = "") then
         storeRef ref (mkObjectReference (orKind o) namespace (orName o) (orAPIVersion o)) h
       else h
   | None =>
       let d := loadDest h dest in
       if negb (bool_decide (DeprecatedName d = ""))
          && bool_decide (DeprecatedNamespace d = "") then
         storeDest dest (mkDestination (Ref d) (URI d) (DeprecatedAPIVersion d)
                           (DeprecatedKind d) (DeprecatedName d) namespace) h
       else h
   end).

Definition ReconcileKind (source : CouchDbSource) : M (CouchDbSource * option error) :=
  source ← status InitializeConditions source;
  match Sink (Spec source) with
  | None =>
      source ← status (MarkNoSink "SinkMissing" "") source;
      mret (source, Some (Errorf "spec.sink missing"))
  | Some sink =>
      h ← getHeap;
      let '(dest, h) := sinkDestination sink (Namespace source) h in
      putHeap h;;
      h ← getHeap;
      got ← call (λ got, ResolveCall (readDest h dest) (errOf got))
                 (URIFromDestination (readDest h dest) source h);
      match got with
      | inr err =>
          source ← status (MarkNoSink "NotFound" "") source;
          mret (source, Some (Errorf ("getting sink URI: " +:+ Error err)))
      | inl sinkURI =>
          h ← getHeap;
          let s := loadDest h sink in
          source ←
            (if negb (bool_decide (DeprecatedAPIVersion s = ""))
                && negb (bool_decide (DeprecatedKind s = ""))
                && negb (bool_decide (DeprecatedName s = ""))
             then status (MarkSinkWarnRefDeprecated sinkURI) source
             else status (MarkSink sinkURI) source);
          '(ra, err) ← createReceiveAdapter source sinkURI;
          match err with
          | Some err => mret (source, Some err)
          | None =>
              source ← status (PropagateDeploymentAvailability ra) source;
              err ← reconcileEventTypes source;
              match err with
              | Some err =>
                  source ← status (MarkNoEventTypes "EventTypesReconcileFailed" "") source;
                  mret (source, Some err)
              | None =>
                  source ← status MarkEventTypes source;
                  mret (source, None)
              end
          end
      end
  end.

(** ** Notions for the statements *)

(** The error a recorded call returned. *)
Definition failed (a : Action) : option error :=
  match a with
  | ResolveCall _ err | SecretsGet _ _ err | DeploymentsGet _ _ err
  | DeploymentsCreate _ _ err | DeploymentsUpdate _ _ err | EventTypesList _ _ err
  | EventTypesDelete _ _ err | EventTypesCreate _ _ err => err
  | StatusCall _ | RecorderEvent _ _ _ => None
  end.

(** The calls that write to the cluster. *)
Definition isWrite (a : Action) : bool :=
  match a with
  | DeploymentsCreate _ _ _ | DeploymentsUpdate _ _ _
  | EventTypesDelete _ _ _ | EventTypesCreate _ _ _ => true
  | _ => false
  end.

Definition writes (t : list Action) : list Action := filter (λ a, isWrite a = true) t.

Definition isUpdate (a : Action) : bool :=
  match a with
  | DeploymentsUpdate _ _ _ => true
  | _ => false
  end.

(** A run of calls that stops at the first failure and returns its error:
    with no error, every call succeeded; with an error, it is the error of the
    last call, and every call before it succeeded. *)
Definition failFast (t : list Action) (err : option error) : Prop :=
  match err with
  | None => Forall (λ a, failed a = None) t
  | Some e =>
      ∃ init a, t = init ++ [a] ∧ Forall (λ a, failed a = None) init ∧ failed a = Some e
  end.

(** The methods that set a condition of the status; [InitializeConditions]
    only fills in the conditions that are not there yet. *)
Definition marksCondition (op : StatusOp) : bool :=
  match op with
  | InitializeConditions => false
  | _ => true
  end.

(** The methods that record a failure in a condition: the calls
    [MarkNoSink] and [MarkNoEventTypes], which [ReconcileKind] makes with a
    reason. *)
Definition marksFailure (op : StatusOp) : bool :=
  match op with
  | MarkNoSink _ _ | MarkNoEventTypes _ _ => true
  | _ => false
  end.

(** The environment-variable list of the container at position [i], if there
    is one. *)
Definition envAt (p : PodSpec) (i : nat) : option (list EnvVar) :=
  Env <$> Containers p !! i.

(** Drift as the specification words it, with its two causes: the desired
    pod spec is not a superset-compatible match of the current one, or some
    container has an environment-variable list in the desired pod spec that
    differs from the one it has in the current pod spec. *)
Definition driftAsWorded (current desired : PodSpec) : Prop :=
  DeepDerivative desired current = false ∨
  ∃ i e e', envAt desired i = Some e ∧ envAt current i = Some e' ∧ e ≠ e'.

(** Drift with the three causes [podSpecChanged] has: the two above, and
    pod specs that do not have the same number of containers. *)
Definition drift (current desired : PodSpec) : Prop :=
  DeepDerivative desired current = false ∨
  length (Containers current) ≠ length (Containers desired) ∨
  ∃ i e e', envAt desired i = Some e ∧ envAt current i = Some e' ∧ e ≠ e'.

(** A destination with the namespace defaulted, as a value: the namespace of
    its reference when it has a reference without one, its deprecated
    namespace when it has no reference but a deprecated name without one. *)
Definition withNamespace (namespace : string) (d : Destination ObjectReference)
  : Destination ObjectReference :=
  match Ref d with
  | Some o =>
      if bool_decide (orNamespace o = "") then
        mkDestination (Some (mkObjectReference (orKind o) namespace (orName o) (orAPIVersion o)))
          (URI d) (DeprecatedAPIVersion d) (DeprecatedKind d) (DeprecatedName d)
          (DeprecatedNamespace d)
      else d
  | None =>
      if negb (bool_decide (DeprecatedName d = "")) && bool_decide (DeprecatedNamespace d = "")
      then mkDestination None (URI d) (DeprecatedAPIVersion d) (DeprecatedKind d)
             (DeprecatedName d) namespace
      else d
  end.

(** The sink of the Source, and the reference the sink holds, are allocated. *)
Definition sinkAllocated (h : Heap) (source : CouchDbSource) : Prop :=
  ∀ p, Sink (Spec source) = Some p →
       p ∈ dom (dests h) ∧ ∀ o, Ref (loadDest h p) = Some o → o ∈ dom (refs h).

End Reconciler.

(** ** The caller *)

(** Modelled from the spec: the control loop that calls [ReconcileKind]; the
    generated reconciler that holds it is not among the sources. Section 6 of
    the specification: a returned value of "no error" signals converged/ready,
    a non-nil error signals retry-with-backoff by the caller, and a
    specially-tagged event signals "success, skip requeue". *)
Definition requeues (returned : option error) : bool :=
  match returned with
  | None => false
  | Some (ReconcilerEventError _ _ _) => false
  | Some _ => true
  end.

(** An error the caller does not retry. *)
Definition nonRetryable (returned : option error) : Prop :=
  is_Some returned ∧ requeues returned = false.

(** ** An in-memory cluster

    A small cluster to run the reconciler on: pod specs with a service account
    and containers, secrets and deployments kept by namespace and name, event
    types kept in a list, and a fault to inject into each kind of write. *)
Module Fake.

Record FContainer : Type := mkFContainer {
  cName : string;
  cImage : string;
  cEnv : list (string * string);
}.

Record FPodSpec : Type := mkFPodSpec {
  pServiceAccountName : string;
  pContainers : list FContainer;
}.

#[export] Instance types : Types := {|
  CouchDbSourceStatus := list string;
  EnvVar := string * string;
  Container := FContainer;
  Env := cEnv;
  PodSpec := FPodSpec;
  Containers := pContainers;
  DeploymentRest := nat;
  URL := string;
|}.

Record FCluster : Type := mkFCluster {
  secrets : list Secret;
  deployments : list Deployment;
  eventTypes : list EventType;
  failCreate : option error;
  failUpdate : option error;
  failDelete : option error;
}.

(** [DeepDerivative] on these types: an unset field (empty string, empty
    slice) of the first argument is not compared; a slice that is set is no
    longer than the slice it is compared with, element by element. *)
Definition ddString (a b : string) : bool := bool_decide (a = "") || bool_decide (a = b).

Definition ddSlice {A : Type} (dd : A → A → bool) (a b : list A) : bool :=
  match a with
  | [] => true
  | _ => bool_decide (length a ≤ length b)%nat && forallb (λ '(x, y), dd x y) (zip a b)
  end.

Definition ddEnvVar (a b : string * string) : bool :=
  ddString a.1 b.1 && ddString a.2 b.2.

Definition ddContainer (a b : FContainer) : bool :=
  ddString (cName a) (cName b) && ddString (cImage a) (cImage b)
  && ddSlice ddEnvVar (cEnv a) (cEnv b).

Definition ddPodSpec (a b : FPodSpec) : bool :=
  ddString (pServiceAccountName a) (pServiceAccountName b)
  && ddSlice ddContainer (pContainers a) (pContainers b).

Definition statusName (op : StatusOp) : string :=
  match op with
  | InitializeConditions => "InitializeConditions"
  | MarkNoSink reason _ => "MarkNoSink " +:+ reason
  | MarkSink uri => "MarkSink " +:+ uri
  | MarkSinkWarnRefDeprecated uri => "MarkSinkWarnRefDeprecated " +:+ uri
  | PropagateDeploymentAvailability _ => "PropagateDeploymentAvailability"
  | MarkNoEventTypes reason _ => "MarkNoEventTypes " +:+ reason
  | MarkEventTypes => "MarkEventTypes"
  end.

Definition getRef (dest : option (Destination ObjectReference)) : option ObjectReference :=
  match dest with
  | None => None
  | Some d =>
      match Ref d with
      | Some o => Some o
      | None =>
          if bool_decide (DeprecatedAPIVersion d = "") && bool_decide (DeprecatedKind d = "")
             && bool_decide (DeprecatedName d = "") && bool_decide (DeprecatedNamespace d = "")
          then None
          else Some (mkObjectReference (DeprecatedKind d) (DeprecatedNamespace d)
                       (DeprecatedName d) (DeprecatedAPIVersion d))
      end
  end.

Definition makeReceiveAdapter (args : ReceiveAdapterArgs) (h : Heap) : Deployment :=
  mkDeployment ("couchdbsource-" +:+ Name (raSource args)) (Namespace (raSource args))
    (Some (UID (raSource args)))
    (mkFPodSpec (ServiceAccountName (Spec (raSource args)))
       [mkFContainer "receive-adapter" (raImage args)
          [("EVENT_SOURCE", raEventSource args); ("SINK_URI", raSinkURI args)]])
    1.

Definition makeEventType (args : EventTypeArgs) (h : Heap) : EventType :=
  mkEventType (etaType args +:+ "-" +:+ Name (etaSrc args)) (Namespace (etaSrc args))
    (Some (UID (etaSrc args)))
    (mkEventTypeSpec (etaType args) (etaSource args) ""
       (default "" (orName <$> getRef (readDest h <$> Sink (Spec (etaSrc args))))) "").

#[export] Instance externals : Externals := {|
  GetRef := getRef;
  Labels name := {[ "knative-eventing-source-name" := name ]};
  MakeReceiveAdapter := makeReceiveAdapter;
  MakeEventType := makeEventType;
  urlParse raw :=
    if bool_decide (raw = "") then inr (PlainError "parse: empty url") else inl raw;
  Hostname url := url;
  quote s := "'" +:+ s +:+ "'";
  DeepDerivative := ddPodSpec;
  CouchDbSourceUpdateEventType := "update";
  CouchDbSourceDeleteEventType := "delete";
  applyStatus op st := st ++ [statusName op];
|}.

Definition notFound (what : string) : error := StatusError "NotFound" (what +:+ " not found").

Definition isDeployment (namespace name : string) (d : Deployment) : bool :=
  String.eqb (dNamespace d) namespace && String.eqb (dName d) name.

Definition withDeployments (k : FCluster) (ds : list Deployment) : FCluster :=
  mkFCluster (secrets k) ds (eventTypes k) (failCreate k) (failUpdate k) (failDelete k).

Definition withEventTypes (k : FCluster) (ets : list EventType) : FCluster :=
  mkFCluster (secrets k) (deployments k) ets (failCreate k) (failUpdate k) (failDelete k).

#[export] Instance reconciler : Reconciler := {|
  Cluster := FCluster;
  receiveAdapterImage := "couchdb-receive-adapter:latest";
  URIFromDestination dest source h k :=
    (match Ref dest, URI dest with
     | Some o, _ =>
         if bool_decide (orNamespace o = "") then inr (PlainError "sink namespace missing")
         else inl ("http://" +:+ orName o +:+ "." +:+ orNamespace o)
     | None, Some uri => inl uri
     | None, None => inr (PlainError "destination missing Ref and URI")
     end, k);
  secretsGet namespace name k :=
    (match find (λ s, String.eqb (secretNamespace s) namespace
                      && String.eqb (secretName s) name) (secrets k) with
     | Some secret => inl secret
     | None => inr (notFound "secret")
     end, k);
  deploymentsGet namespace name k :=
    (match find (isDeployment namespace name) (deployments k) with
     | Some d => inl d
     | None => inr (notFound "deployment")
     end, k);
  deploymentsCreate namespace d k :=
    match failCreate k with
    | Some err => ((None, Some err), k)
    | None => ((Some d, None), withDeployments k (deployments k ++ [d]))
    end;
  deploymentsUpdate namespace d k :=
    match failUpdate k with
    | Some err => ((None, Some err), k)
    | None =>
        ((Some d, None),
         withDeployments k
           ((λ d', if isDeployment namespace (dName d) d' then d else d') <$> deployments k))
    end;
  eventTypesList namespace selector k :=
    (inl (List.filter (λ et, String.eqb (etNamespace et) namespace) (eventTypes k)), k);
  eventTypesDelete namespace name k :=
    match failDelete k with
    | Some err => (Some err, k)
    | None =>
        (None, withEventTypes k
                 (List.filter (λ et, negb (String.eqb (etNamespace et) namespace
                                           && String.eqb (etName et) name)) (eventTypes k)))
    end;
  eventTypesCreate namespace et k :=
    match failCreate k with
    | Some err => ((None, Some err), k)
    | None => ((Some et, None), withEventTypes k (eventTypes k ++ [et]))
    end;
|}.

(** A Source named [orders-source] in namespace [default], for the database
    [orders], with its sink at heap location [sink]. *)
Definition source (sink : option loc) : CouchDbSource :=
  mkCouchDbSource "orders-source" "default" "uid-1"
    (mkCouchDbSourceSpec "sa" (mkObjectReference "Secret" "" "couchdb-binding" "v1") "continuous"
       "orders" sink)
    [].

(** The heap that holds, at location 1, a sink with a reference of the given
    kind, named [default], with no namespace. *)
Definition heapWithSink (kind : string) : Heap :=
  mkHeap {[ 1%positive := mkDestination (Some 1%positive) None "" "" "" "" ]}
         {[ 1%positive := mkObjectReference kind "" "default" "eventing.knative.dev/v1alpha1" ]}.

Definition emptyHeap : Heap := mkHeap ∅ ∅.

Definition credentials : Secret :=
  mkSecret "couchdb-binding" "default" {[ "url" := "couchdb" ]}.

Definition credentialsWithoutUrl : Secret :=
  mkSecret "couchdb-binding" "default" {[ "username" := "admin" ]}.

(** An event type owned by [source], in its namespace. *)
Definition record (name type origin schema broker description : string) : EventType :=
  mkEventType name "default" (Some "uid-1")
    (mkEventTypeSpec type origin schema broker description).

(** Two current records with one key, the older one with a description the
    desired record does not have. *)
Definition updateType : string := "update".
Definition origin : string := "couchdb/orders".
Definition staleUpdate : EventType := record "update-1" updateType origin "" "default" "stale".
Definition currentUpdate : EventType := record "update-2" updateType origin "" "default" "".
Definition desiredUpdate : EventType := record "update-3" updateType origin "" "default" "".

(** Records whose fields hold the separator of the key: both have the key
    [a_b_c__]. *)
Definition leftRecord : EventType := record "left" "a_b" "c" "" "" "".
Definition rightRecord : EventType := record "right" "a" "b_c" "" "" "".

Definition clusterWith (secret : option Secret)
    (ds : list Deployment) (ets : list EventType) : FCluster :=
  mkFCluster (option_list secret) ds ets None None None.

Definition withFailCreate (err : error) (k : FCluster) : FCluster :=
  mkFCluster (secrets k) (deployments k) (eventTypes k) (Some err) (failUpdate k) (failDelete k).

Definition withFailDelete (err : error) (k : FCluster) : FCluster :=
  mkFCluster (secrets k) (deployments k) (eventTypes k) (failCreate k) (failUpdate k) (Some err).

Definition sinkURI : string := "http://default.default".

(** The pod spec [makeReceiveAdapter] builds for [source]. *)
Definition desiredPodSpec : FPodSpec :=
  mkFPodSpec "sa"
    [mkFContainer "receive-adapter" "couchdb-receive-adapter:latest"
       [("EVENT_SOURCE", origin); ("SINK_URI", sinkURI)]].

(** A deployment of the derived name that [source] controls, with another
    sink in the environment of its container. *)
Definition driftedDeployment : Deployment :=
  mkDeployment "couchdbsource-orders-source" "default" (Some "uid-1")
    (mkFPodSpec "sa"
       [mkFContainer "receive-adapter" "couchdb-receive-adapter:latest"
          [("EVENT_SOURCE", origin); ("SINK_URI", "http://old.default")]])
    1.

(** A deployment of the derived name that another object controls. *)
Definition foreignDeployment : Deployment :=
  mkDeployment "couchdbsource-orders-source" "default" (Some "uid-2") desiredPodSpec 1.

Definition emptyWorld : World := mkWorld emptyHeap (clusterWith (Some credentials) [] []).

Definition worldWithoutUrl : World :=
  mkWorld emptyHeap (clusterWith (Some credentialsWithoutUrl) [] []).

Definition worldFailingCreate : World :=
  mkWorld emptyHeap
    (withFailCreate (StatusError "Forbidden" "deployments is forbidden")
       (clusterWith (Some credentials) [] [])).

Definition worldWithDrift : World :=
  mkWorld emptyHeap (clusterWith (Some credentials) [driftedDeployment] []).

Definition worldWithForeign : World :=
  mkWorld emptyHeap (clusterWith (Some credentials) [foreignDeployment] []).

(** A broker sink, and one stale event type of the Source in the cluster;
    deletes fail. *)
Definition worldWithBroker : World :=
  mkWorld (heapWithSink "Broker") (clusterWith (Some credentials) [] []).


(** A broker sink, and a deployment of the derived name that another object
    controls. *)
Definition worldWithConflict : World :=
  mkWorld (heapWithSink "Broker") (clusterWith (Some credentials) [foreignDeployment] []).

Definition worldFailingDelete : World :=
  mkWorld (heapWithSink "Broker")
    (withFailDelete (StatusError "Conflict" "the object has been modified")
       (clusterWith (Some credentials) [] [staleUpdate])).

(** A deployment of the derived name that [source] controls: the container
    of the desired pod spec, as it is desired, and a second container. *)
Definition sidecarDeployment : Deployment :=
  mkDeployment "couchdbsource-orders-source" "default" (Some "uid-1")
    (mkFPodSpec "sa"
       [mkFContainer "receive-adapter" "couchdb-receive-adapter:latest"
          [("EVENT_SOURCE", origin); ("SINK_URI", sinkURI)];
        mkFContainer "proxy" "proxy:latest" []])
    1.

Definition worldWithSidecar : World :=
  mkWorld emptyHeap (clusterWith (Some credentials) [sidecarDeployment] []).



End Fake.

(** ** The lookup of the receive adapter through the lister *)

Section Lister.

Context {T : Types} {X : Externals} {r : Reconciler}.

(** The field [deploymentLister] of the struct [Reconciler]:
    [Deployments(namespace).List(selector)] on the state of the cluster. *)
Class DeploymentLister : Type := {
  deploymentsList :
    string → gmap string string → Cluster → (list Deployment + error) * Cluster;
}.

Context {lister : DeploymentLister}.

(** [apierrors.NewNotFound(qualifiedResource, name)]: a status error of
    reason [NotFound] with the message [<resource> "<name>" not found]. *)
Definition NewNotFound (qualifiedResource name : string) : error :=
  StatusError "NotFound" (qualifiedResource +:+ " " +:+ quote name +:+ " not found").

(** [getReceiveAdapter]: the first listed deployment that the Source controls.
    The group resource handed to [NewNotFound] is the empty one, which prints
    as the empty string. *)
Definition getReceiveAdapter (src : CouchDbSource) (k : Cluster)
  : (option Deployment * option error) * Cluster :=
  let '(got, k) := deploymentsList (Namespace src) (getLabelSelector src) k in
  match got with
  | inr err => ((None, Some err), k)
  | inl dl =>
      match find (λ dep, IsControlledBy (dController dep) src) dl with
      | Some dep => ((Some dep, None), k)
      | None => ((None, Some (NewNotFound "" "")), k)
      end
  end.

(** *** More notions for the statements *)

(** The methods of the status called in a run, in order. *)
Definition statusCalls (t : list Action) : list StatusOp :=
  omap (λ a, match a with StatusCall op => Some op | _ => None end) t.

(** The actions of the deployment step: the lookup of the secret, the calls
    on deployments, and the recorder's events. *)
Definition isDeploymentStep (a : Action) : bool :=
  match a with
  | SecretsGet _ _ _ | DeploymentsGet _ _ _ | DeploymentsCreate _ _ _
  | DeploymentsUpdate _ _ _ | RecorderEvent _ _ _ => true
  | _ => false
  end.

(** The actions of the event-type step: the lookup of the secret and the
    calls on event types. *)
Definition isEventTypeStep (a : Action) : bool :=
  match a with
  | SecretsGet _ _ _ | EventTypesList _ _ _ | EventTypesDelete _ _ _
  | EventTypesCreate _ _ _ => true
  | _ => false
  end.

(** The calls on deployments, and the calls on event types. *)
Definition isDeploymentCall (a : Action) : bool :=
  match a with
  | DeploymentsGet _ _ _ | DeploymentsCreate _ _ _ | DeploymentsUpdate _ _ _ => true
  | _ => false
  end.

Definition isEventTypeCall (a : Action) : bool :=
  match a with
  | EventTypesList _ _ _ | EventTypesDelete _ _ _ | EventTypesCreate _ _ _ => true
  | _ => false
  end.

(** Whether the three deprecated fields of a sink that make a reference are
    all set. *)
Definition deprecatedRef (d : Destination loc) : bool :=
  negb (bool_decide (DeprecatedAPIVersion d = ""))
  && negb (bool_decide (DeprecatedKind d = ""))
  && negb (bool_decide (DeprecatedName d = "")).

(** The current records left when the records of [toDelete] are deleted,
    followed by the records of [toCreate]. *)
Definition applyDiff (current toCreate toDelete : list EventType) : list EventType :=
  filter (λ c, c ∉ toDelete) current ++ toCreate.

End Lister.

(** The lister of the in-memory cluster. *)
Module FakeLister.

Import Fake.

#[export] Instance lister : DeploymentLister := {|
  deploymentsList namespace selector k :=
    (inl (List.filter (λ d, String.eqb (dNamespace d) namespace) (deployments k)), k);
|}.

(** A deployment of another name that the Source controls. *)
Definition ownedDeployment : Deployment :=
  mkDeployment "adapter" "default" (Some "uid-1") desiredPodSpec 1.

(** The desired records of the Source for a broker sink, and a record with
    the key of the first and another description. *)
Definition desiredDelete : EventType :=
  record "delete-3" "delete" origin "" "default" "".

Definition worldSteady : World :=
  mkWorld (heapWithSink "Broker")
    (clusterWith (Some credentials) []
       [record "update-9" "update" origin "" "default" "";
        record "delete-9" "delete" origin "" "default" ""]).

Definition worldWithoutSecret : World :=
  mkWorld (heapWithSink "Broker") (clusterWith None [] []).

(** A sink without a reference and without a URI: it is not resolved. *)
Definition heapUnresolved : Heap :=
  mkHeap {[ 1%positive := mkDestination None None "" "" "" "" ]} ∅.

Definition worldUnresolved : World :=
  mkWorld heapUnresolved (clusterWith (Some credentials) [] []).

(** An event type in the namespace of the Source that another object
    controls. *)
Definition strangerType : EventType :=
  mkEventType "update-7" "default" (Some "uid-2")
    (mkEventTypeSpec "update" origin "" "default" "").

Definition worldWithStranger : World :=
  mkWorld (heapWithSink "Broker")
    (clusterWith (Some credentials) [] [staleUpdate; strangerType]).

(** Clusters for the lister: one where the deployment of the Source comes
    after a deployment of another owner, one with the other owner's only. *)
Definition clusterWithOwned : FCluster :=
  clusterWith (Some credentials) [foreignDeployment; ownedDeployment] [].

Definition clusterWithForeign : FCluster :=
  clusterWith (Some credentials) [foreignDeployment] [].

(** The reconciler of a cluster whose deployments cannot be read. *)
Definition unavailable : error :=
  StatusError "ServiceUnavailable" "the server is currently unable to handle the request".

Definition reconcilerDown : Reconciler := {|
  Cluster := FCluster;
  receiveAdapterImage := "couchdb-receive-adapter:latest";
  URIFromDestination := URIFromDestination (Reconciler := reconciler);
  secretsGet := secretsGet (Reconciler := reconciler);
  deploymentsGet namespace name k := (inr unavailable, k);
  deploymentsCreate := deploymentsCreate (Reconciler := reconciler);
  deploymentsUpdate := deploymentsUpdate (Reconciler := reconciler);
  eventTypesList := eventTypesList (Reconciler := reconciler);
  eventTypesDelete := eventTypesDelete (Reconciler := reconciler);
  eventTypesCreate := eventTypesCreate (Reconciler := reconciler);
|}.

Definition worldDown : @World types reconcilerDown :=
  @mkWorld types reconcilerDown emptyHeap (clusterWith (Some credentials) [] []).

Definition worldFailingUpdate : World :=
  mkWorld emptyHeap
    (mkFCluster [credentials] [driftedDeployment] [] None
       (Some (StatusError "Conflict" "the object has been modified")) None).

End FakeLister.

(** ** Theorems: the diff of event types *)

Section Diff.

Implicit Types (current desired expected : list EventType) (k : string).

Lemma asMap_lookup_foldl (keyFunc : EventType → string) l (m : gmap string EventType) k :
  foldl (λ eventTypesAsMap eventType, <[keyFunc eventType := eventType]> eventTypesAsMap) m l !! k
  = match last (filter (λ c, keyFunc c = k) l) with
    | Some c => Some c
    | None => m !! k
    end.
Proof.
  revert m. induction l as [|x l IH]; intros m; [done|].
  cbn [foldl]. rewrite IH, filter_cons.
  destruct (decide (keyFunc x = k)) as [Hk|Hk].
  - destruct (filter _ l) as [|y l'] eqn:E.
    + cbn. by rewrite <- Hk, lookup_insert_eq.
    + rewrite (last_cons x). destruct (last (y :: l')); [done|].
      by rewrite <- Hk, lookup_insert_eq.
  - destruct (last _); [done|]. by rewrite lookup_insert_ne.
Qed.

Lemma asMap_lookup l k : asMap l keyFromEventType !! k = currentRecord l k.
Proof.
  unfold asMap, currentRecord. rewrite asMap_lookup_foldl.
  destruct (last _); [done|]. apply lookup_empty.
Qed.

Lemma currentRecord_None l k :
  currentRecord l k = None ↔ k ∉ keyFromEventType <$> l.
Proof.
  unfold currentRecord. rewrite last_None. split.
  - intros Hf [c [-> Hc]]%list_elem_of_fmap.
    assert (c ∈ filter (λ c0, keyFromEventType c0 = keyFromEventType c) l) as Hin
      by (by apply list_elem_of_filter).
    rewrite Hf in Hin. by apply elem_of_nil in Hin.
  - intros Hk. destruct (filter _ l) as [|c l'] eqn:E; [done|].
    assert (c ∈ filter (λ c0, keyFromEventType c0 = k) l) as [<- Hc]%list_elem_of_filter
      by (rewrite E; left).
    destruct Hk. apply list_elem_of_fmap. eauto.
Qed.

Lemma currentRecord_Some l k c :
  currentRecord l k = Some c → c ∈ l ∧ keyFromEventType c = k.
Proof.
  unfold currentRecord. intros Hl.
  assert (c ∈ filter (λ c0, keyFromEventType c0 = k) l) as [? ?]%list_elem_of_filter; [|done].
  apply last_Some in Hl as [l' ->]. apply elem_of_app. right. left.
Qed.

(** With pairwise distinct keys, the record of a key is the one record that
    has it. *)
Lemma currentRecord_NoDup l c :
  NoDup (keyFromEventType <$> l) → c ∈ l → currentRecord l (keyFromEventType c) = Some c.
Proof.
  unfold currentRecord. induction l as [|x l IH]; intros Hnd Hc; [by apply elem_of_nil in Hc|].
  rewrite fmap_cons in Hnd. apply NoDup_cons in Hnd as [Hx Hnd].
  rewrite filter_cons. apply elem_of_cons in Hc as [->|Hc].
  - rewrite decide_True by done.
    assert (filter (λ c0, keyFromEventType c0 = keyFromEventType x) l = []) as ->; [|done].
    apply elem_of_nil_inv. intros y [Hk Hy]%list_elem_of_filter.
    apply Hx. rewrite <- Hk. apply list_elem_of_fmap. eauto.
  - rewrite decide_False.
    + by apply IH.
    + intros Hk. apply Hx. rewrite Hk. apply list_elem_of_fmap. eauto.
Qed.

Lemma computeDiff_first_loop (m : gmap string EventType) expected toCreate toDelete :
  foldl (λ '(toCreate, toDelete) e,
           match m !! keyFromEventType e with
           | None => (toCreate ++ [e], toDelete)
           | Some c =>
               if negb (DeepEqualSpec (etSpec e) (etSpec c))
               then (toCreate ++ [e], toDelete ++ [c])
               else (toCreate, toDelete)
           end) (toCreate, toDelete) expected
  = (toCreate ++ filter (λ e, creates m e = true) expected,
     toDelete ++ omap (replaces m) expected).
Proof.
  revert toCreate toDelete. induction expected as [|e l IH]; intros toCreate toDelete.
  - cbn. by rewrite !app_nil_r.
  - cbn [foldl]. rewrite filter_cons.
    change (omap (replaces m) (e :: l))
      with (match replaces m e with
            | Some c => c :: omap (replaces m) l
            | None => omap (replaces m) l
            end).
    destruct (m !! keyFromEventType e) as [c|] eqn:Hm.
    + assert (creates m e = negb (DeepEqualSpec (etSpec e) (etSpec c))) as Hc
        by (unfold creates; by rewrite Hm).
      assert (replaces m e
              = if negb (DeepEqualSpec (etSpec e) (etSpec c)) then Some c else None) as ->
        by (unfold replaces; by rewrite Hm).
      rewrite Hc. destruct (negb _); rewrite IH.
      * rewrite decide_True by done. by rewrite <- !app_assoc.
      * by rewrite decide_False by done.
    + assert (creates m e = true) as -> by (unfold creates; by rewrite Hm).
      assert (replaces m e = None) as -> by (unfold replaces; by rewrite Hm).
      rewrite IH, decide_True by done. by rewrite <- !app_assoc.
Qed.

Lemma computeDiff_second_loop (m : gmap string EventType) current toDelete :
  foldl (λ toDelete c,
           match m !! keyFromEventType c with
           | None => toDelete ++ [c]
           | Some _ => toDelete
           end) toDelete current
  = toDelete ++ filter (λ c, m !! keyFromEventType c = None) current.
Proof.
  revert toDelete. induction current as [|c l IH]; intros toDelete.
  - cbn. by rewrite app_nil_r.
  - cbn [foldl]. rewrite filter_cons, IH.
    destruct (m !! keyFromEventType c); cbn.
    + by rewrite decide_False by done.
    + rewrite decide_True by done. by rewrite <- app_assoc.
Qed.

(** [computeDiff] in closed form; both lists keep the order of the list they
    are taken from. *)
Lemma computeDiff_eq current expected :
  computeDiff current expected
  = (filter (λ e, creates (asMap current keyFromEventType) e = true) expected,
     omap (replaces (asMap current keyFromEventType)) expected
     ++ filter (λ c, asMap expected keyFromEventType !! keyFromEventType c = None) current).
Proof.
  unfold computeDiff. rewrite computeDiff_first_loop. cbn.
  by rewrite computeDiff_second_loop.
Qed.

End Diff.

Section DiffTheorems.

Implicit Types (current desired : list EventType).

(** What [toCreate] holds, by key. *)
Lemma computeDiff_toCreate current desired e :
  e ∈ (computeDiff current desired).1 ↔
  e ∈ desired ∧
  (keyFromEventType e ∉ keyFromEventType <$> current ∨
   ∃ c, currentRecord current (keyFromEventType e) = Some c ∧ etSpec e ≠ etSpec c).
Proof.
  rewrite computeDiff_eq. cbn [fst].
  rewrite list_elem_of_filter. unfold creates. rewrite asMap_lookup. split.
  - intros [Hc He]. split; [done|].
    destruct (currentRecord current (keyFromEventType e)) as [c|] eqn:E.
    + right. exists c. split; [done|].
      by apply negb_true_iff, bool_decide_eq_false in Hc.
    + left. by apply currentRecord_None.
  - intros [He [Hk|(c & Hc & Hne)]]; (split; [|done]).
    + apply currentRecord_None in Hk. by rewrite Hk.
    + rewrite Hc. by apply negb_true_iff, bool_decide_eq_false.
Qed.

(** What [toDelete] holds, by key. *)
Lemma computeDiff_toDelete current desired c :
  c ∈ (computeDiff current desired).2 ↔
  (c ∈ current ∧ keyFromEventType c ∉ keyFromEventType <$> desired) ∨
  (∃ e, e ∈ desired ∧ currentRecord current (keyFromEventType e) = Some c
        ∧ etSpec e ≠ etSpec c).
Proof.
  rewrite computeDiff_eq. cbn [snd].
  rewrite elem_of_app, list_elem_of_omap, list_elem_of_filter.
  rewrite asMap_lookup, currentRecord_None. split.
  - intros [(e & He & Hr)|[Hk Hc]]; [right|by left].
    exists e. unfold replaces in Hr. rewrite asMap_lookup in Hr.
    destruct (currentRecord current (keyFromEventType e)) as [c'|]; [|done].
    destruct (negb _) eqn:E; [|done]. simplify_eq. repeat split; [done|].
    by apply negb_true_iff, bool_decide_eq_false in E.
  - intros [[Hc Hk]|(e & He & Hr & Hne)]; [by right|left].
    exists e. split; [done|]. unfold replaces. rewrite asMap_lookup, Hr.
    assert (negb (DeepEqualSpec (etSpec e) (etSpec c)) = true) as ->; [|done].
    by apply negb_true_iff, bool_decide_eq_false.
Qed.

(** With pairwise distinct keys in [current], no order is involved. *)
Lemma computeDiff_distinct_keys current desired :
  NoDup (keyFromEventType <$> current) →
  (∀ e, e ∈ (computeDiff current desired).1 ↔
        e ∈ desired ∧
        ∀ c, c ∈ current → keyFromEventType c = keyFromEventType e → etSpec e ≠ etSpec c) ∧
  (∀ c, c ∈ (computeDiff current desired).2 ↔
        c ∈ current ∧
        (keyFromEventType c ∉ keyFromEventType <$> desired ∨
         ∃ e, e ∈ desired ∧ keyFromEventType e = keyFromEventType c ∧ etSpec e ≠ etSpec c)).
Proof.
  intros Hnd. split.
  - intros e. rewrite computeDiff_toCreate. split; intros [He H]; (split; [done|]).
    + intros c Hc Hk. destruct H as [Habs|(c' & Hrec & Hne)].
      * destruct Habs. rewrite <- Hk. by apply list_elem_of_fmap_2.
      * rewrite <- Hk, (currentRecord_NoDup _ _ Hnd Hc) in Hrec. by simplify_eq.
    + destruct (currentRecord current (keyFromEventType e)) as [c|] eqn:E.
      * right. exists c. split; [done|].
        apply currentRecord_Some in E as [Hc Hk]. by apply H.
      * left. by apply currentRecord_None.
  - intros c. rewrite computeDiff_toDelete. split.
    + intros [[Hc Hk]|(e & He & Hrec & Hne)]; [by split; [|left]|].
      apply currentRecord_Some in Hrec as [Hc Hk]. split; [done|]. right. by exists e.
    + intros [Hc [Hk|(e & He & Hk & Hne)]]; [by left|right].
      exists e. split; [done|]. split; [|done].
      rewrite Hk. by apply currentRecord_NoDup.
Qed.

(** The key of a record whose type, source and schema hold no separator
    splits into its four fields in one way only. *)
Lemma separator_split (a b x y : string) :
  separatorFree a = true → separatorFree b = true →
  a +:+ String "_" x = b +:+ String "_" y → a = b ∧ x = y.
Proof.
  revert b. induction a as [|c a IH]; intros [|d b]; cbn; intros Ha Hb Heq.
  - by simplify_eq.
  - simplify_eq; by rewrite ?Ascii.eqb_refl in Hb.
  - simplify_eq; by rewrite ?Ascii.eqb_refl in Ha.
  - apply andb_true_iff in Ha as [_ Ha]. apply andb_true_iff in Hb as [_ Hb].
    injection Heq as -> Heq. by destruct (IH b Ha Hb Heq) as [-> ->].
Qed.

Lemma keyFromEventType_key4 (a b : EventType) :
  keySplits a → keySplits b →
  keyFromEventType a = keyFromEventType b ↔ key4 a = key4 b.
Proof.
  intros (Ha1 & Ha2 & Ha3) (Hb1 & Hb2 & Hb3). unfold keyFromEventType, key4. split.
  - cbn. intros Heq.
    apply separator_split in Heq as [-> Heq]; [|done..].
    apply separator_split in Heq as [-> Heq]; [|done..].
    apply separator_split in Heq as [-> ->]; done.
  - by intros [= -> -> -> ->].
Qed.

Lemma NoDup_fmap_compatible {A B C : Type} (f : A → B) (g : A → C) (l : list A) :
  (∀ x y, x ∈ l → y ∈ l → f x = f y → g x = g y) →
  NoDup (g <$> l) → NoDup (f <$> l).
Proof.
  induction l as [|x l IH]; intros Hfg; [constructor|].
  rewrite !fmap_cons, !NoDup_cons. intros [Hx Hnd]. split.
  - intros (y & Hy & Hin)%list_elem_of_fmap. apply Hx.
    rewrite (Hfg x y); [by apply list_elem_of_fmap_2|left|by right|done].
  - apply IH; [|done]. intros y z Hy Hz. apply Hfg; by right.
Qed.

(** The diff as the specification words it holds for records whose keys split
    and whose four-tuples are pairwise distinct in [current]. *)
Lemma computeDiff_four_tuple current desired :
  Forall keySplits (current ++ desired) →
  NoDup (key4 <$> current) →
  diffByFourTuple current desired (computeDiff current desired).1 (computeDiff current desired).2.
Proof.
  rewrite Forall_app, !Forall_forall. intros [Hsc Hsd] Hnd.
  assert (NoDup (keyFromEventType <$> current)) as Hnd'.
  { apply (NoDup_fmap_compatible _ key4); [|done].
    intros x y Hx Hy. apply keyFromEventType_key4; auto. }
  destruct (computeDiff_distinct_keys current desired Hnd') as [Hcr Hdel]. split.
  - intros e. rewrite Hcr. split; intros [He H]; (split; [done|]).
    + destruct (decide (key4 e ∈ key4 <$> current)) as [Hin|Hin]; [right|by left].
      apply list_elem_of_fmap in Hin as (c & Hk & Hc). exists c. repeat split; [done..|].
      apply H; [done|]. apply keyFromEventType_key4; auto.
    + intros c Hc Hk. apply keyFromEventType_key4 in Hk; auto.
      destruct H as [Habs|(c' & Hc' & Hk' & Hne)].
      * destruct Habs. rewrite <- Hk. by apply list_elem_of_fmap_2.
      * intros Heq. rewrite Heq in Hne. apply Hne. f_equal.
        assert (keyFromEventType c' = keyFromEventType c) as Hkk
          by (apply keyFromEventType_key4; auto; congruence).
        pose proof (currentRecord_NoDup _ _ Hnd' Hc') as H1.
        pose proof (currentRecord_NoDup _ _ Hnd' Hc) as H2.
        rewrite Hkk in H1. congruence.
  - intros c. rewrite Hdel. split; intros [Hc H]; (split; [done|]).
    + destruct H as [Habs|(e & He & Hk & Hne)].
      * left. intros (e & Hk & He)%list_elem_of_fmap. apply Habs.
        apply list_elem_of_fmap. exists e. split; [|done].
        apply keyFromEventType_key4; auto.
      * right. exists e. repeat split; [done| |done].
        apply keyFromEventType_key4; auto.
    + destruct H as [Habs|(e & He & Hk & Hne)].
      * left. intros (e & Hk & He)%list_elem_of_fmap. apply Habs.
        apply list_elem_of_fmap. exists e. split; [|done].
        apply keyFromEventType_key4; auto.
      * right. exists e. repeat split; [done| |done].
        apply keyFromEventType_key4; auto.
Qed.

(** C1 (as amended). [computeDiff] is keyed by the string that
    [keyFromEventType] builds, and the record of a key in [current] is the last
    one that carries it. [toCreate] holds exactly the desired records whose
    key is absent from [current] or whose spec differs from the spec of the
    current record of their key; [toDelete] holds exactly the current records
    whose key is absent from [desired], and the current record of the key of
    each desired record whose spec differs from it. *)
Theorem computeDiff_by_key current desired :
  (∀ e, e ∈ (computeDiff current desired).1 ↔
        e ∈ desired ∧
        (keyFromEventType e ∉ keyFromEventType <$> current ∨
         ∃ c, currentRecord current (keyFromEventType e) = Some c ∧ etSpec e ≠ etSpec c)) ∧
  (∀ c, c ∈ (computeDiff current desired).2 ↔
        (c ∈ current ∧ keyFromEventType c ∉ keyFromEventType <$> desired) ∨
        (∃ e, e ∈ desired ∧ currentRecord current (keyFromEventType e) = Some c
              ∧ etSpec e ≠ etSpec c)).
Proof.
  split.
  - intros e. apply computeDiff_toCreate.
  - intros c. apply computeDiff_toDelete.
Qed.

(** C1 (counterexample). Two current records share the four-tuple of the one
    desired record; the older one has another spec, yet nothing is created and
    nothing is deleted, the later one standing for the key. *)
Lemma computeDiff_duplicate_key :
  computeDiff [Fake.staleUpdate; Fake.currentUpdate] [Fake.desiredUpdate] = ([], []) ∧
  ¬ diffByFourTuple [Fake.staleUpdate; Fake.currentUpdate] [Fake.desiredUpdate]
      (computeDiff [Fake.staleUpdate; Fake.currentUpdate] [Fake.desiredUpdate]).1
      (computeDiff [Fake.staleUpdate; Fake.currentUpdate] [Fake.desiredUpdate]).2.
Proof.
  assert (computeDiff [Fake.staleUpdate; Fake.currentUpdate] [Fake.desiredUpdate] = ([], []))
    as Heq by (by vm_compute).
  split; [done|]. rewrite Heq. intros [Hcr _].
  assert (Fake.desiredUpdate ∈ @nil EventType) as Hin; [|by apply elem_of_nil in Hin].
  apply Hcr. split; [left|]. right. exists Fake.staleUpdate.
  repeat split; [left|done].
Qed.

(** The separator in a field: a current record is deleted although the
    desired list holds a record with its four-tuple and its spec. *)
Example computeDiff_ambiguous_key :
  computeDiff [Fake.rightRecord] [Fake.leftRecord; Fake.rightRecord]
  = ([Fake.leftRecord], [Fake.rightRecord]).
Proof. by vm_compute. Qed.

End DiffTheorems.

(** ** Theorems: the reconciler *)

Section ReconcilerTheorems.

Context {T : Types} {X : Externals} {r : Reconciler}.

Implicit Types (src source : CouchDbSource) (w : World) (t : list Action).

#[local] Arguments IsNotFound : simpl never.
#[local] Arguments IsControlledBy : simpl never.
#[local] Arguments podSpecChanged : simpl never.
#[local] Arguments fmtV : simpl never.
#[local] Arguments Error : simpl never.
#[local] Arguments String.append : simpl never.
#[local] Arguments computeDiff : simpl never.

Ltac run :=
  unfold status, Eventf in *;
  unfold mbind, mret, M_bind, M_ret, call, emit, getHeap, putHeap in *;
  cbn beta iota zeta in *.

(** [makeEventSource] makes one call, the lookup of the secret, in the
    namespace of the credentials or else of the Source. *)
Lemma makeEventSource_run src w :
  let namespace :=
    if bool_decide (orNamespace (CouchDbCredentials (Spec src)) = "")
    then Namespace src else orNamespace (CouchDbCredentials (Spec src)) in
  let name := orName (CouchDbCredentials (Spec src)) in
  ∃ res,
    makeEventSource src w
    = (res, mkWorld (heap w) (secretsGet namespace name (cluster w)).2,
       [SecretsGet namespace name (errOf (secretsGet namespace name (cluster w)).1)])
    ∧ res = match (secretsGet namespace name (cluster w)).1 with
            | inr err => ("", Some err)
            | inl secret =>
                match Data secret !! "url" with
                | None => ("", None)
                | Some rawurl =>
                    match urlParse rawurl with
                    | inr err => ("", Some err)
                    | inl url => (Hostname url +:+ "/" +:+ Database (Spec src), None)
                    end
                end
            end.
Proof.
  intros namespace name. unfold makeEventSource. fold namespace name. run.
  destruct (secretsGet namespace name (cluster w)) as [[secret|err] k]; cbn.
  - destruct (Data secret !! "url") as [rawurl|]; [|by eexists].
    destruct (urlParse rawurl); by eexists.
  - by eexists.
Qed.

Lemma makeEventSource_heap src w res w' t :
  makeEventSource src w = (res, w', t) → heap w' = heap w.
Proof.
  destruct (makeEventSource_run src w) as (res' & Heq & _). rewrite Heq.
  by intros [= _ <- _].
Qed.

Lemma makeEventSource_writes src w res w' t :
  makeEventSource src w = (res, w', t) → writes t = [].
Proof.
  destruct (makeEventSource_run src w) as (res' & Heq & _). rewrite Heq.
  by intros [= _ _ <-].
Qed.

(** *** Drift of the pod spec *)

Lemma envAt_length_differs (current desired : PodSpec) :
  length (Containers current) ≠ length (Containers desired) →
  ∃ i, envAt desired i ≠ envAt current i.
Proof.
  intros Hlen. unfold envAt.
  destruct (decide (length (Containers current) < length (Containers desired))) as [Hlt|Hge].
  - exists (length (Containers current)).
    rewrite (lookup_ge_None_2 (Containers current)) by lia.
    destruct (lookup_lt_is_Some_2 (Containers desired) _ Hlt) as [c ->]. done.
  - exists (length (Containers desired)).
    rewrite (lookup_ge_None_2 (Containers desired)) by lia.
    destruct (lookup_lt_is_Some_2 (Containers current) (length (Containers desired)))
      as [c ->]; [lia|done].
Qed.

Lemma envAt_loop (current desired : PodSpec) :
  length (Containers current) = length (Containers desired) →
  existsb (λ i, match Containers desired !! i, Containers current !! i with
                | Some n, Some o => negb (DeepEqualEnv (Env n) (Env o))
                | _, _ => false
                end) (seq 0 (length (Containers desired))) = true
  ↔ ∃ i, envAt desired i ≠ envAt current i.
Proof.
  intros Hlen. rewrite existsb_exists. unfold envAt, DeepEqualEnv. split.
  - intros (i & _ & Hi). exists i.
    destruct (Containers desired !! i) as [n|]; [|done].
    destruct (Containers current !! i) as [o|]; [|done].
    apply negb_true_iff, bool_decide_eq_false in Hi. cbn. congruence.
  - intros (i & Hi). exists i.
    destruct (decide (i < length (Containers desired))) as [Hlt|Hge].
    + split; [apply in_seq; lia|].
      destruct (lookup_lt_is_Some_2 (Containers desired) _ Hlt) as [n Hn].
      destruct (lookup_lt_is_Some_2 (Containers current) i) as [o Ho]; [lia|].
      rewrite Hn, Ho in *. apply negb_true_iff, bool_decide_eq_false.
      cbn in Hi. congruence.
    + rewrite (lookup_ge_None_2 (Containers desired)) in Hi by lia.
      rewrite (lookup_ge_None_2 (Containers current)) in Hi by lia. done.
Qed.

Lemma podSpecChanged_envAt (current desired : PodSpec) :
  podSpecChanged current desired = true
  ↔ DeepDerivative desired current = false ∨ ∃ i, envAt desired i ≠ envAt current i.
Proof.
  unfold podSpecChanged.
  destruct (DeepDerivative desired current); cbn.
  - destruct (decide (length (Containers current) = length (Containers desired)))
      as [Hlen|Hlen].
    + rewrite bool_decide_eq_true_2 by done. cbn. rewrite envAt_loop by done.
      split; [by right|]. by intros [|].
    + rewrite bool_decide_eq_false_2 by done. cbn.
      split; [|done]. intros _. right. by apply envAt_length_differs.
  - split; [by left|done].
Qed.

(** Two pod specs differ in the environment of a position when they have
    different numbers of containers, or a container at one position on both
    sides with different environments. *)
Lemma envAt_differs (current desired : PodSpec) :
  (∃ i, envAt desired i ≠ envAt current i)
  ↔ length (Containers current) ≠ length (Containers desired) ∨
    ∃ i e e', envAt desired i = Some e ∧ envAt current i = Some e' ∧ e ≠ e'.
Proof.
  split.
  - intros [i Hi].
    destruct (decide (length (Containers current) = length (Containers desired)))
      as [Hlen|Hlen]; [|by left].
    right. exists i. unfold envAt in *.
    destruct (Containers desired !! i) as [n|] eqn:Hn,
             (Containers current !! i) as [o|] eqn:Ho; cbn in *.
    + exists (Env n), (Env o). split_and!; [done|done|congruence].
    + apply lookup_lt_Some in Hn. apply lookup_ge_None in Ho. lia.
    + apply lookup_lt_Some in Ho. apply lookup_ge_None in Hn. lia.
    + done.
  - intros [Hlen|(i & e & e' & Hd & Hc & Hne)].
    + by apply envAt_length_differs.
    + exists i. rewrite Hd, Hc. congruence.
Qed.

Lemma drift_envAt (current desired : PodSpec) :
  drift current desired
  ↔ DeepDerivative desired current = false ∨ ∃ i, envAt desired i ≠ envAt current i.
Proof. unfold drift. by rewrite envAt_differs. Qed.

(** [podSpecChanged] decides drift. *)
Lemma podSpecChanged_drift (current desired : PodSpec) :
  podSpecChanged current desired = true ↔ drift current desired.
Proof. by rewrite drift_envAt, podSpecChanged_envAt. Qed.

(** Drift as worded is drift, not the other way round. *)
Lemma driftAsWorded_drift (current desired : PodSpec) :
  driftAsWorded current desired → drift current desired.
Proof. intros [?|?]; [by left|by right; right]. Qed.

Lemma podSpecChanged_no_drift (current desired : PodSpec) :
  podSpecChanged current desired = false ↔ ¬ drift current desired.
Proof.
  rewrite <- podSpecChanged_drift. by destruct (podSpecChanged current desired).
Qed.

(** C9. When the secret is found and its data has no key [url],
    [makeEventSource] returns the empty string and a nil error, and
    [createReceiveAdapter] goes on with it: it builds the receive adapter for
    the event source [""] and looks its deployment up. *)
Theorem makeEventSource_missing_url src w secret k :
  let namespace :=
    if bool_decide (orNamespace (CouchDbCredentials (Spec src)) = "")
    then Namespace src else orNamespace (CouchDbCredentials (Spec src)) in
  let name := orName (CouchDbCredentials (Spec src)) in
  secretsGet namespace name (cluster w) = (inl secret, k) →
  Data secret !! "url" = None →
  makeEventSource src w = (("", None), mkWorld (heap w) k, [SecretsGet namespace name None]) ∧
  ∀ sinkURI,
    let expected :=
      MakeReceiveAdapter
        (mkReceiveAdapterArgs "" receiveAdapterImage src (Labels (Name src)) sinkURI) (heap w) in
    ∃ res w' err t,
      createReceiveAdapter src sinkURI w
      = (res, w', SecretsGet namespace name None
                  :: DeploymentsGet (Namespace src) (dName expected) err :: t).
Proof.
  intros namespace name Hget Hurl.
  assert (makeEventSource src w
          = (("", None), mkWorld (heap w) k, [SecretsGet namespace name None])) as Hsrc.
  { destruct (makeEventSource_run src w) as (res & -> & ->).
    fold namespace name. rewrite Hget. cbn. by rewrite Hurl. }
  split; [done|]. intros sinkURI expected.
  unfold createReceiveAdapter. run. rewrite Hsrc. cbn. fold expected.
  destruct (deploymentsGet (Namespace src) (dName expected) k) as [[ra|err] k2]; cbn.
  - destruct (IsControlledBy (dController ra) src); cbn;
      [|do 4 eexists; cbn; reflexivity].
    destruct (podSpecChanged _ _); cbn; [|do 4 eexists; cbn; reflexivity].
    destruct (deploymentsUpdate _ _ _) as [[ra' [err|]] k3]; do 4 eexists; cbn; reflexivity.
  - destruct (IsNotFound (Some err)); cbn; [|do 4 eexists; cbn; reflexivity].
    destruct (deploymentsCreate _ _ _) as [[ra' err'] k3]. do 4 eexists; cbn; reflexivity.
Qed.

(** C10. When the lookup of the deployment says it is not found, the
    deployment is created, the event [CouchDbSourceDeploymentCreated] is
    recorded after the call whatever the call returned, with the error of the
    call in its message, and the pair the call returned is the result. *)
Theorem createReceiveAdapter_not_found src sinkURI w eventSource w1 t1 err k2 ra cerr k3 :
  makeEventSource src w = ((eventSource, None), w1, t1) →
  let expected :=
    MakeReceiveAdapter
      (mkReceiveAdapterArgs eventSource receiveAdapterImage src (Labels (Name src)) sinkURI)
      (heap w1) in
  deploymentsGet (Namespace src) (dName expected) (cluster w1) = (inr err, k2) →
  IsNotFound (Some err) = true →
  deploymentsCreate (Namespace src) expected k2 = ((ra, cerr), k3) →
  createReceiveAdapter src sinkURI w
  = ((ra, cerr), mkWorld (heap w1) k3,
     t1 ++ [DeploymentsGet (Namespace src) (dName expected) (Some err);
            DeploymentsCreate (Namespace src) expected cerr;
            RecorderEvent "Normal" "CouchDbSourceDeploymentCreated"
              ("Deployment created, error: " +:+ fmtV cerr)]).
Proof.
  intros Hsrc expected Hget Hnf Hcreate.
  unfold createReceiveAdapter. run. rewrite Hsrc. cbn. fold expected.
  rewrite Hget. cbn. rewrite Hnf. cbn. rewrite Hcreate. cbn. reflexivity.
Qed.

(** C3 (as amended). When the deployment of the derived name exists and is not
    controlled by the Source, [createReceiveAdapter] returns no deployment and
    the error [deployment ... is not owned by CouchDbSource ...], a plain
    error as every error it builds, and has called neither create nor update:
    its calls are the lookup of the secret and the lookup of the deployment. *)
Theorem createReceiveAdapter_not_owned src sinkURI w eventSource w1 t1 ra k2 :
  makeEventSource src w = ((eventSource, None), w1, t1) →
  let expected :=
    MakeReceiveAdapter
      (mkReceiveAdapterArgs eventSource receiveAdapterImage src (Labels (Name src)) sinkURI)
      (heap w1) in
  deploymentsGet (Namespace src) (dName expected) (cluster w1) = (inl ra, k2) →
  IsControlledBy (dController ra) src = false →
  createReceiveAdapter src sinkURI w
  = ((None, Some (PlainError ("deployment " +:+ quote (dName ra) +:+
                              " is not owned by CouchDbSource " +:+ quote (Name src)))),
     mkWorld (heap w1) k2,
     t1 ++ [DeploymentsGet (Namespace src) (dName expected) None])
  ∧ writes (t1 ++ [DeploymentsGet (Namespace src) (dName expected) None]) = [].
Proof.
  intros Hsrc expected Hget Hown. split.
  - unfold createReceiveAdapter. run. rewrite Hsrc. cbn. fold expected.
    rewrite Hget. cbn. rewrite Hown. cbn. reflexivity.
  - unfold writes. rewrite filter_app. fold (writes t1).
    by rewrite (makeEventSource_writes _ _ _ _ _ Hsrc).
Qed.

(** C2 (as amended). When the deployment of the derived name exists and is
    controlled by the Source, [createReceiveAdapter] calls update if and only
    if the pod spec has drifted, where drift has three causes: the desired pod
    spec is not a deep derivative of the current one, the two do not have the
    same number of containers, or the environment-variable lists of a
    container differ. With drift, the one write is the update of the existing
    deployment with the desired pod spec in place of its own; a change of an
    environment-variable list alone is drift; a pod spec equal to the desired
    one is returned as it is, with no write. *)
Theorem createReceiveAdapter_owned src sinkURI w eventSource w1 t1 ra k2 :
  makeEventSource src w = ((eventSource, None), w1, t1) →
  let expected :=
    MakeReceiveAdapter
      (mkReceiveAdapterArgs eventSource receiveAdapterImage src (Labels (Name src)) sinkURI)
      (heap w1) in
  deploymentsGet (Namespace src) (dName expected) (cluster w1) = (inl ra, k2) →
  IsControlledBy (dController ra) src = true →
  ∃ res w' t,
    createReceiveAdapter src sinkURI w = (res, w', t) ∧
    ((∃ a, a ∈ t ∧ isUpdate a = true) ↔ drift (dPodSpec ra) (dPodSpec expected)) ∧
    (drift (dPodSpec ra) (dPodSpec expected) →
     ∃ err, writes t
            = [DeploymentsUpdate (Namespace src)
                 (mkDeployment (dName ra) (dNamespace ra) (dController ra)
                    (dPodSpec expected) (dRest ra)) err]) ∧
    (¬ drift (dPodSpec ra) (dPodSpec expected) → res = (Some ra, None) ∧ writes t = []) ∧
    (DeepDerivative (dPodSpec expected) (dPodSpec ra) = true →
     (∃ i, envAt (dPodSpec expected) i ≠ envAt (dPodSpec ra) i) →
     ∃ a, a ∈ t ∧ isUpdate a = true) ∧
    (DeepDerivative (dPodSpec expected) (dPodSpec expected) = true →
     dPodSpec ra = dPodSpec expected →
     res = (Some ra, None) ∧ writes t = []).
Proof.
  intros Hsrc expected Hget Hown.
  pose proof (makeEventSource_writes _ _ _ _ _ Hsrc) as Hw1.
  assert (∀ a, a ∈ t1 → isUpdate a = false) as Hu1.
  { intros a Ha. destruct (isUpdate a) eqn:E; [|done].
    assert (a ∈ writes t1) as Hin
      by (apply list_elem_of_filter; split; [by destruct a|done]).
    rewrite Hw1 in Hin. by apply elem_of_nil in Hin. }
  set (get := DeploymentsGet (Namespace src) (dName expected) None).
  set (ra' := mkDeployment (dName ra) (dNamespace ra) (dController ra)
                (dPodSpec expected) (dRest ra)).
  assert (∃ res w' t,
            createReceiveAdapter src sinkURI w = (res, w', t) ∧
            if podSpecChanged (dPodSpec ra) (dPodSpec expected)
            then ∃ err rest, t = t1 ++ get :: DeploymentsUpdate (Namespace src) ra' err :: rest
                             ∧ writes rest = []
            else res = (Some ra, None) ∧ t = t1 ++ [get]) as (res & w' & t & Heq & Hcase).
  { unfold createReceiveAdapter. run. rewrite Hsrc. cbn. fold expected.
    rewrite Hget. cbn. rewrite Hown. cbn.
    destruct (podSpecChanged (dPodSpec ra) (dPodSpec expected)); cbn.
    - fold ra'. destruct (deploymentsUpdate (Namespace src) ra' k2) as [[d [err|]] k3]; cbn;
        do 3 eexists; (split; [reflexivity|]); do 2 eexists; (split; [reflexivity|done]).
    - do 3 eexists. split; [reflexivity|]. done. }
  exists res, w', t. split; [done|].
  assert (drift (dPodSpec ra) (dPodSpec expected) →
          (∃ a, a ∈ t ∧ isUpdate a = true) ∧
          ∃ err, writes t = [DeploymentsUpdate (Namespace src) ra' err]) as Hdrift.
  { intros Hd%podSpecChanged_drift. rewrite Hd in Hcase.
    destruct Hcase as (err & rest & -> & Hrest). split.
    - exists (DeploymentsUpdate (Namespace src) ra' err). split; [|done].
      apply elem_of_app. right. right. left.
    - exists err. unfold writes. rewrite filter_app. fold (writes t1). rewrite Hw1.
      rewrite !filter_cons. rewrite decide_False by done.
      rewrite decide_True by done. fold (writes rest). by rewrite Hrest. }
  assert (¬ drift (dPodSpec ra) (dPodSpec expected) →
          res = (Some ra, None) ∧ writes t = [] ∧ ∀ a, a ∈ t → isUpdate a = false) as Hnodrift.
  { intros Hd%podSpecChanged_no_drift. rewrite Hd in Hcase. destruct Hcase as [-> ->].
    split; [done|]. split.
    - unfold writes. rewrite filter_app. fold (writes t1). by rewrite Hw1.
    - intros a [Ha|Ha%list_elem_of_singleton]%elem_of_app; [by apply Hu1|by subst]. }
  split; [|split; [|split; [|split]]].
  - split; [|by intros H; apply Hdrift].
    intros (a & Ha & Hup).
    destruct (podSpecChanged (dPodSpec ra) (dPodSpec expected)) eqn:E;
      [by apply podSpecChanged_drift|].
    apply podSpecChanged_no_drift in E.
    destruct (Hnodrift E) as (_ & _ & Hno). rewrite (Hno a Ha) in Hup. done.
  - by intros H; apply Hdrift.
  - intros Hn. by destruct (Hnodrift Hn) as (? & ? & _).
  - intros _ Henv. apply Hdrift, drift_envAt. by right.
  - intros Hdd Hspec.
    assert (¬ drift (dPodSpec ra) (dPodSpec expected)) as Hn.
    { rewrite Hspec, drift_envAt. intros [Hd|[i Hi]]; [congruence|done]. }
    by destruct (Hnodrift Hn) as (? & ? & _).
Qed.

(** *** Event types *)

Lemma getEventTypes_heap src w res w' t :
  getEventTypes src w = (res, w', t) → heap w' = heap w.
Proof.
  unfold getEventTypes. run.
  destruct (eventTypesList _ _ _) as [[etl|err] k]; cbn; by intros [= _ <- _].
Qed.

Lemma makeEventTypes_heap src w res w' t :
  makeEventTypes src w = (res, w', t) → heap w' = heap w.
Proof.
  unfold makeEventTypes. run.
  destruct (sinkRef (heap w) src) as [ref|]; [|by intros [= _ <- _]].
  destruct (negb _); [by intros [= _ <- _]|].
  destruct (makeEventSource src w) as [[[origin err] w1] t1] eqn:Hsrc.
  apply makeEventSource_heap in Hsrc. destruct err; cbn; by intros [= _ <- _].
Qed.

Lemma failFast_app ds cs err :
  failFast ds None → failFast cs err → failFast (ds ++ cs) err.
Proof.
  unfold failFast. intros Hds. destruct err as [e|].
  - intros (init & a & -> & Hinit & Ha). exists (ds ++ init), a.
    rewrite app_assoc. split; [done|]. split; [|done]. by apply Forall_app.
  - intros Hcs. by apply Forall_app.
Qed.


(** The loop over [toDelete] issues the deletes of a prefix of the list, in
    order, and stops at the first one that fails. *)
Lemma deleteEventTypes_run namespace (toDelete : list EventType) w :
  ∃ err w' ds n,
    deleteEventTypes namespace toDelete w = (err, w', ds) ∧
    heap w' = heap w ∧
    Forall2 (λ a et, a = EventTypesDelete namespace (etName et) (failed a)) ds (take n toDelete) ∧
    failFast ds err ∧
    (err = None → n = length toDelete).
Proof.
  revert w. induction toDelete as [|et l IH]; intros w.
  - exists None, w, [], 0. cbn. repeat split; constructor.
  - cbn [deleteEventTypes]. run.
    destruct (eventTypesDelete namespace (etName et) (cluster w)) as [[e|] k] eqn:Hdel; cbn.
    + exists (Some e), (mkWorld (heap w) k), [EventTypesDelete namespace (etName et) (Some e)], 1.
      repeat split; [|by exists [], (EventTypesDelete namespace (etName et) (Some e))|done].
      cbn. rewrite take_0. by repeat constructor.
    + destruct (IH (mkWorld (heap w) k)) as (err & w' & ds & n & -> & Hh & Hds & Hff & Hn).
      exists err, w', (EventTypesDelete namespace (etName et) None :: ds), (S n).
      repeat split; [done|by constructor| |by intros ->%Hn].
      apply (failFast_app [_] ds); [|done]. by repeat constructor.
Qed.

(** The loop over [toCreate], likewise. *)
Lemma createEventTypes_run namespace (toCreate : list EventType) w :
  ∃ err w' cs n,
    createEventTypes namespace toCreate w = (err, w', cs) ∧
    heap w' = heap w ∧
    Forall2 (λ a et, a = EventTypesCreate namespace et (failed a)) cs (take n toCreate) ∧
    failFast cs err ∧
    (err = None → n = length toCreate).
Proof.
  revert w. induction toCreate as [|et l IH]; intros w.
  - exists None, w, [], 0. cbn. repeat split; constructor.
  - cbn [createEventTypes]. run.
    destruct (eventTypesCreate namespace et (cluster w)) as [[created [e|]] k] eqn:Hcr; cbn.
    + exists (Some e), (mkWorld (heap w) k), [EventTypesCreate namespace et (Some e)], 1.
      repeat split; [|by exists [], (EventTypesCreate namespace et (Some e))|done].
      cbn. rewrite take_0. by repeat constructor.
    + destruct (IH (mkWorld (heap w) k)) as (err & w' & cs & n & -> & Hh & Hcs & Hff & Hn).
      exists err, w', (EventTypesCreate namespace et None :: cs), (S n).
      repeat split; [done|by constructor| |by intros ->%Hn].
      apply (failFast_app [_] cs); [|done]. by repeat constructor.
Qed.




(** *** The heap *)

Lemma loadDest_storeDest_eq (p : loc) d h : loadDest (storeDest p d h) p = d.
Proof. unfold loadDest, storeDest. cbn. by rewrite lookup_insert_eq. Qed.

Lemma loadDest_storeDest_ne (p q : loc) d h :
  p ≠ q → loadDest (storeDest p d h) q = loadDest h q.
Proof. intros. unfold loadDest, storeDest. cbn. by rewrite lookup_insert_ne. Qed.

Lemma loadDest_storeRef (o q : loc) x h : loadDest (storeRef o x h) q = loadDest h q.
Proof. done. Qed.

Lemma loadRef_storeRef_eq (o : loc) x h : loadRef (storeRef o x h) o = x.
Proof. unfold loadRef, storeRef. cbn. by rewrite lookup_insert_eq. Qed.

Lemma loadRef_storeRef_ne (o q : loc) x h :
  o ≠ q → loadRef (storeRef o x h) q = loadRef h q.
Proof. intros. unfold loadRef, storeRef. cbn. by rewrite lookup_insert_ne. Qed.

Lemma loadRef_storeDest (p q : loc) d h : loadRef (storeDest p d h) q = loadRef h q.
Proof. done. Qed.

(** The copy of the sink is made of fresh cells: the sink and its reference
    read as before, and the copy reads as the sink with the namespace
    defaulted. *)
Lemma sinkDestination_frame (p : loc) (namespace : string) (h : Heap) :
  p ∈ dom (dests h) →
  (∀ o, Ref (loadDest h p) = Some o → o ∈ dom (refs h)) →
  loadDest (sinkDestination p namespace h).2 p = loadDest h p ∧
  readDest (sinkDestination p namespace h).2 p = readDest h p ∧
  readDest (sinkDestination p namespace h).2 (sinkDestination p namespace h).1
  = withNamespace namespace (readDest h p).
Proof.
  intros Hp Ho.
  assert (fresh (dom (dests h)) ≠ p) as Hfp by (intros <-; by apply (is_fresh (dom (dests h)))).
  unfold sinkDestination, DeepCopy, newRef, newDest, withNamespace, readDest.
  destruct (Ref (loadDest h p)) as [o|] eqn:Href; cbn [fst snd fmap option_fmap option_map Ref].
  - assert (fresh (dom (refs h)) ≠ o) as Hfo.
    { intros Heq. apply (is_fresh (dom (refs h))). rewrite Heq. by apply Ho. }
    change (dests (storeRef (fresh (dom (refs h))) (loadRef h o) h)) with (dests h).
    rewrite !loadDest_storeDest_eq. cbn [Ref].
    rewrite loadRef_storeDest, loadRef_storeRef_eq.
    destruct (bool_decide (orNamespace (loadRef h o) = "")).
    + rewrite !loadDest_storeRef, loadDest_storeDest_eq, loadDest_storeDest_ne by done.
      rewrite !loadDest_storeRef, Href. cbn.
      by rewrite loadRef_storeRef_eq, !loadRef_storeRef_ne, loadRef_storeDest,
        loadRef_storeRef_ne by done.
    + rewrite loadDest_storeDest_eq, loadDest_storeDest_ne by done.
      rewrite !loadDest_storeRef, Href. cbn.
      by rewrite !loadRef_storeDest, loadRef_storeRef_eq, loadRef_storeRef_ne by done.
  - rewrite !loadDest_storeDest_eq. rewrite Href.
    destruct (negb _ && _).
    + rewrite loadDest_storeDest_eq, !loadDest_storeDest_ne by done. by rewrite Href.
    + rewrite loadDest_storeDest_eq, !loadDest_storeDest_ne by done. by rewrite Href.
Qed.

Lemma createReceiveAdapter_heap src sinkURI w res w' t :
  createReceiveAdapter src sinkURI w = (res, w', t) → heap w' = heap w.
Proof.
  unfold createReceiveAdapter. run.
  destruct (makeEventSource src w) as [[[eventSource err] w1] t1] eqn:Hsrc.
  apply makeEventSource_heap in Hsrc. destruct err as [err|]; cbn; [by intros [= _ <- _]|].
  destruct (deploymentsGet _ _ _) as [[ra|err] k2]; cbn.
  - destruct (negb _); cbn; [by intros [= _ <- _]|].
    destruct (podSpecChanged _ _); cbn; [|by intros [= _ <- _]].
    destruct (deploymentsUpdate _ _ _) as [[ra' [err|]] k3]; cbn; by intros [= _ <- _].
  - destruct (IsNotFound _); cbn; [|by intros [= _ <- _]].
    destruct (deploymentsCreate _ _ _) as [[ra' err'] k3]; cbn. by intros [= _ <- _].
Qed.

Lemma reconcileEventTypes_heap src w res w' t :
  reconcileEventTypes src w = (res, w', t) → heap w' = heap w.
Proof.
  unfold reconcileEventTypes. run.
  destruct (getEventTypes src w) as [[[current err] w1] t1] eqn:Hcur.
  apply getEventTypes_heap in Hcur. destruct err; cbn; [by intros [= _ <- _]|].
  destruct (makeEventTypes src w1) as [[[expected err] w2] t2] eqn:Hexp.
  apply makeEventTypes_heap in Hexp. destruct err; cbn; [intros [= _ <- _]; congruence|].
  destruct (computeDiff current expected) as [toCreate toDelete].
  destruct (deleteEventTypes_run (Namespace src) toDelete w2)
    as (errd & wd & ds & nd & -> & Hd & _).
  destruct errd; cbn; [intros [= _ <- _]; congruence|].
  destruct (createEventTypes_run (Namespace src) toCreate wd)
    as (errc & wc & cs & nc & -> & Hc & _).
  destruct errc; cbn; intros [= _ <- _]; congruence.
Qed.

(** *** [ReconcileKind] *)

Lemma ReconcileKind_no_sink_run source w :
  Sink (Spec source) = None →
  ReconcileKind source w
  = ((mkCouchDbSource (Name source) (Namespace source) (UID source) (Spec source)
        (applyStatus (MarkNoSink "SinkMissing" "")
           (applyStatus InitializeConditions (Status source))),
      Some (PlainError "spec.sink missing")),
     w,
     [StatusCall InitializeConditions; StatusCall (MarkNoSink "SinkMissing" "")]).
Proof. intros Hsink. unfold ReconcileKind. run. cbn. by rewrite Hsink. Qed.

Lemma ReconcileKind_sink_run source w sink :
  Sink (Spec source) = Some sink →
  ∃ source' err w' rerr rest,
    ReconcileKind source w
    = ((source', err), w',
       StatusCall InitializeConditions
       :: ResolveCall (readDest (sinkDestination sink (Namespace source) (heap w)).2
                         (sinkDestination sink (Namespace source) (heap w)).1) rerr
       :: rest) ∧
    Spec source' = Spec source ∧
    heap w' = (sinkDestination sink (Namespace source) (heap w)).2 ∧
    (is_Some err → ∃ op, StatusCall op ∈ rest ∧ marksCondition op = true).
Proof.
  intros Hsink. unfold ReconcileKind. run. cbn. rewrite Hsink.
  destruct (sinkDestination sink (Namespace source) (heap w)) as [dest h]. cbn.
  destruct (URIFromDestination _ _ _ _) as [[sinkURI|rerr] k]; cbn.
  - set (mark := if _ && _ then _ else _).
    assert (∃ source1 op,
              mark = (λ w, (source1, w, [StatusCall op])) ∧
              Spec source1 = Spec source ∧ marksCondition op = true)
      as (source1 & op & -> & Hspec & Hop).
    { subst mark. destruct (_ && _); by do 2 eexists. }
    destruct (createReceiveAdapter source1 sinkURI (mkWorld h k))
      as [[[ra err] w1] t1] eqn:Hra.
    apply createReceiveAdapter_heap in Hra. cbn in Hra.
    destruct err as [err|]; cbn.
    + do 5 eexists. split_and!; [reflexivity|done|done|].
      intros _. exists op. split; [left|done].
    + destruct (reconcileEventTypes _ w1) as [[err w2] t2] eqn:Het.
      apply reconcileEventTypes_heap in Het.
      destruct err as [err|]; cbn.
      * do 5 eexists. split_and!; [reflexivity|cbn; congruence|cbn; congruence|].
        intros _. exists op. split; [left|done].
      * do 5 eexists. split_and!; [reflexivity|cbn; congruence|cbn; congruence|].
        by intros [? ?].
  - do 5 eexists. split_and!; [reflexivity|done|done|].
    intros _. exists (MarkNoSink "NotFound" ""). split; [left|done].
Qed.

(** C6 (as amended). With no sink in the spec, [ReconcileKind] initializes
    the conditions, marks the sink condition with the reason [SinkMissing], and
    returns the plain error [spec.sink missing]: it makes no call on the
    cluster, resolves no sink, and reconciles neither the deployment nor the
    event types. *)
Theorem ReconcileKind_no_sink source w :
  Sink (Spec source) = None →
  ReconcileKind source w
  = ((mkCouchDbSource (Name source) (Namespace source) (UID source) (Spec source)
        (applyStatus (MarkNoSink "SinkMissing" "")
           (applyStatus InitializeConditions (Status source))),
      Some (PlainError "spec.sink missing")),
     w,
     [StatusCall InitializeConditions; StatusCall (MarkNoSink "SinkMissing" "")]).
Proof.
  intros Hsink. unfold ReconcileKind. run. cbn.
  (* the status call leaves the spec, and with it the sink, as it is *)
  rewrite Hsink. reflexivity.
Qed.

(** C7. [ReconcileKind] resolves the copy of the sink with the namespace of
    the Source filled in where the reference has none, and leaves the Source
    as it was: its spec is the same, and the sink it points to, with the
    reference the sink holds, reads after the call as it read before. *)
Theorem ReconcileKind_sink_unchanged source w :
  sinkAllocated (heap w) source →
  ∃ source' err w' t,
    ReconcileKind source w = ((source', err), w', t) ∧
    Spec source' = Spec source ∧
    (∀ sink, Sink (Spec source) = Some sink →
       loadDest (heap w') sink = loadDest (heap w) sink ∧
       readDest (heap w') sink = readDest (heap w) sink ∧
       ∃ rerr, ResolveCall (withNamespace (Namespace source) (readDest (heap w) sink)) rerr ∈ t) ∧
    (∀ sink o, Sink (Spec source) = Some sink →
       Ref (readDest (heap w) sink) = Some o → orNamespace o = "" →
       Ref (withNamespace (Namespace source) (readDest (heap w) sink))
       = Some (mkObjectReference (orKind o) (Namespace source) (orName o) (orAPIVersion o))).
Proof.
  intros Hwf. destruct (Sink (Spec source)) as [sink|] eqn:Hsink.
  - destruct (Hwf sink Hsink) as [Hp Ho].
    destruct (sinkDestination_frame sink (Namespace source) (heap w) Hp Ho)
      as (Hload & Hread & Hdest).
    destruct (ReconcileKind_sink_run source w sink Hsink)
      as (source' & err & w' & rerr & rest & Heq & Hspec & Hheap & _).
    do 4 eexists. split; [exact Heq|]. split_and!; [done| |].
    + intros ? [= <-]. rewrite Hheap. split_and!; [done|done|].
      exists rerr. rewrite <- Hdest. right. left.
    + intros ? o [= <-] Href Hns. unfold withNamespace. rewrite Href.
      by rewrite bool_decide_eq_true_2.
  - rewrite (ReconcileKind_no_sink_run source w Hsink). by do 4 eexists.
Qed.

End ReconcilerTheorems.

(** ** More on the diff of event types *)

Section MoreDiff.

Implicit Types (current expected : list EventType) (k : string).

Lemma filter_all {A : Type} (P : A → Prop) `{∀ x, Decision (P x)} (l : list A) :
  (∀ x, x ∈ l → P x) → filter P l = l.
Proof.
  induction l as [|x l IH]; intros Hall; [done|].
  rewrite filter_cons, decide_True by (apply Hall; left).
  f_equal. apply IH. intros y Hy. apply Hall. by right.
Qed.

Lemma omap_none {A B : Type} (f : A → option B) (l : list A) :
  (∀ x, x ∈ l → f x = None) → omap f l = [].
Proof.
  intros Hall. apply elem_of_nil_inv. intros y (x & Hx & Hf)%list_elem_of_omap.
  rewrite (Hall x Hx) in Hf. done.
Qed.

Lemma NoDup_fmap_eq {A B : Type} (f : A → B) (l : list A) (x y : A) :
  NoDup (f <$> l) → x ∈ l → y ∈ l → f x = f y → x = y.
Proof.
  induction l as [|z l IH]; [by intros _ ?%elem_of_nil|].
  rewrite fmap_cons, NoDup_cons. intros [Hz Hnd] Hx Hy Hf.
  apply elem_of_cons in Hx as [->|Hx]; apply elem_of_cons in Hy as [->|Hy].
  - done.
  - destruct Hz. rewrite Hf. by apply list_elem_of_fmap_2.
  - destruct Hz. rewrite <- Hf. by apply list_elem_of_fmap_2.
  - by apply IH.
Qed.

Lemma computeDiff_toCreate_sublist current expected :
  (computeDiff current expected).1 `sublist_of` expected.
Proof. rewrite computeDiff_eq. cbn [fst]. apply sublist_filter. Qed.

(** X1. When no key of [expected] is a key of [current], every expected
    record is created and every current record is deleted, both in the order
    of their lists; in particular with no current records, or with no expected
    ones. *)
Theorem computeDiff_disjoint_keys current expected :
  (∀ e, e ∈ expected → keyFromEventType e ∉ keyFromEventType <$> current) →
  computeDiff current expected = (expected, current).
Proof.
  intros Hdisj. rewrite computeDiff_eq. f_equal.
  - apply filter_all. intros e He. unfold creates.
    rewrite asMap_lookup. by rewrite (proj2 (currentRecord_None _ _) (Hdisj e He)).
  - rewrite omap_none.
    + cbn. apply filter_all. intros c Hc. rewrite asMap_lookup.
      apply currentRecord_None. intros (e & Hk & He)%list_elem_of_fmap.
      apply (Hdisj e He). rewrite <- Hk. by apply list_elem_of_fmap_2.
    + intros e He. unfold replaces.
      rewrite asMap_lookup. by rewrite (proj2 (currentRecord_None _ _) (Hdisj e He)).
Qed.

(** When every expected record has a current record with its key and its
    spec, and every current key is expected, there is nothing to do. *)
Lemma computeDiff_nothing_to_do current expected :
  NoDup (keyFromEventType <$> current) →
  (∀ e, e ∈ expected →
        ∃ c, c ∈ current ∧ keyFromEventType c = keyFromEventType e ∧ etSpec c = etSpec e) →
  (∀ c, c ∈ current → keyFromEventType c ∈ keyFromEventType <$> expected) →
  computeDiff current expected = ([], []).
Proof.
  intros Hnd Hexp Hcur.
  assert (∀ e c, e ∈ expected → currentRecord current (keyFromEventType e) = Some c →
                 etSpec e = etSpec c) as Hsame.
  { intros e c He Hrec. destruct (Hexp e He) as (c0 & Hc0 & Hk & Hs).
    rewrite <- Hk, (currentRecord_NoDup _ _ Hnd Hc0) in Hrec. by simplify_eq. }
  destruct (computeDiff current expected) as [toCreate toDelete] eqn:Hdiff.
  f_equal; apply elem_of_nil_inv.
  - intros e He. change toCreate with (toCreate, toDelete).1 in He. rewrite <- Hdiff in He.
    apply computeDiff_toCreate in He as [He [Habs|(c & Hrec & Hne)]].
    + destruct (Hexp e He) as (c0 & Hc0 & Hk & _). apply Habs.
      rewrite <- Hk. by apply list_elem_of_fmap_2.
    + by apply Hne, Hsame.
  - intros c Hc. change toDelete with (toCreate, toDelete).2 in Hc. rewrite <- Hdiff in Hc.
    apply computeDiff_toDelete in Hc as [[Hc Habs]|(e & He & Hrec & Hne)].
    + by apply Habs, Hcur.
    + by apply Hne, Hsame.
Qed.

(** X2. The diff converges: with pairwise distinct keys in both lists, once
    the records of [toDelete] are removed from [current] and the records of
    [toCreate] are added, the next diff against the same expected records is
    empty. *)
Theorem computeDiff_converges current expected :
  NoDup (keyFromEventType <$> current) →
  NoDup (keyFromEventType <$> expected) →
  computeDiff
    (applyDiff current (computeDiff current expected).1 (computeDiff current expected).2)
    expected
  = ([], []).
Proof.
  intros Hndc Hnde. unfold applyDiff.
  set (toCreate := (computeDiff current expected).1).
  set (toDelete := (computeDiff current expected).2).
  set (kept := filter (λ c, c ∉ toDelete) current).
  (* a kept record and a created record never share a key *)
  assert (∀ c e, c ∈ kept → e ∈ toCreate → keyFromEventType c ≠ keyFromEventType e) as Hsep.
  { intros c e [Hnot Hc]%list_elem_of_filter He Hk.
    apply computeDiff_toCreate in He as [He [Habs|(c' & Hrec & Hne)]].
    - apply Habs. rewrite <- Hk. by apply list_elem_of_fmap_2.
    - assert (c' = c) as ->
        by (rewrite <- Hk, (currentRecord_NoDup _ _ Hndc Hc) in Hrec; by simplify_eq).
      apply Hnot, computeDiff_toDelete. right. exists e. by rewrite <- Hk in Hrec |- *. }
  apply computeDiff_nothing_to_do.
  - rewrite fmap_app. apply NoDup_app. split_and!.
    + apply (sublist_NoDup _ (keyFromEventType <$> current)); [done|].
      apply fmap_sublist, sublist_filter.
    + intros k (c & -> & Hc)%list_elem_of_fmap (e & Hk & He)%list_elem_of_fmap.
      by apply (Hsep c e).
    + apply (sublist_NoDup _ (keyFromEventType <$> expected)); [done|].
      apply fmap_sublist, computeDiff_toCreate_sublist.
  - intros e He. destruct (decide (e ∈ toCreate)) as [Hin|Hout].
    + exists e. split; [|done]. apply elem_of_app. by right.
    + destruct (currentRecord current (keyFromEventType e)) as [c|] eqn:Hrec.
      * apply currentRecord_Some in Hrec as Hc. destruct Hc as [Hc Hk].
        destruct (decide (etSpec e = etSpec c)) as [Hs|Hs].
        -- exists c. split; [|done]. apply elem_of_app. left.
           apply list_elem_of_filter. split; [|done].
           intros [[_ Habs]|(e' & He' & Hrec' & Hne)]%computeDiff_toDelete.
           ++ apply Habs. rewrite Hk. by apply list_elem_of_fmap_2.
           ++ apply currentRecord_Some in Hrec' as [_ Hk'].
              assert (e' = e) as -> by (apply (NoDup_fmap_eq keyFromEventType expected);
                                        [done..|congruence]).
              by apply Hne.
        -- destruct Hout. apply computeDiff_toCreate. split; [done|]. right. by exists c.
      * destruct Hout. apply computeDiff_toCreate. split; [done|]. left.
        by apply currentRecord_None.
  - intros c [[Hnot Hc]%list_elem_of_filter|Hc]%elem_of_app.
    + destruct (decide (keyFromEventType c ∈ keyFromEventType <$> expected)); [done|].
      destruct Hnot. apply computeDiff_toDelete. by left.
    + apply list_elem_of_fmap_2. by apply computeDiff_toCreate in Hc as [? _].
Qed.

(** X3. The diff keeps the order of its inputs and takes its records from
    them: [toCreate] is a sublist of [expected], and every record of
    [toDelete] is a current one. *)
Theorem computeDiff_from_inputs current expected :
  (computeDiff current expected).1 `sublist_of` expected ∧
  ∀ c, c ∈ (computeDiff current expected).2 → c ∈ current.
Proof.
  split; [apply computeDiff_toCreate_sublist|].
  intros c [[Hc _]|(e & _ & Hrec & _)]%computeDiff_toDelete; [done|].
  by apply currentRecord_Some in Hrec as [? _].
Qed.

(** X4. The key tells the four-tuples of two records apart when the type, the
    source and the schema of both hold no underscore: such records have the
    same key exactly when they have the same type, source, schema and
    broker. *)
Theorem keyFromEventType_injective (a b : EventType) :
  keySplits a → keySplits b →
  keyFromEventType a = keyFromEventType b →
  Type_ (etSpec a) = Type_ (etSpec b) ∧ Source_ (etSpec a) = Source_ (etSpec b) ∧
  Schema (etSpec a) = Schema (etSpec b) ∧ Broker (etSpec a) = Broker (etSpec b).
Proof.
  intros Ha Hb Hk. apply (keyFromEventType_key4 a b Ha Hb) in Hk.
  unfold key4 in Hk. by simplify_eq.
Qed.

(** X5. [asMap] finds a key exactly when a record of the list has it, what it
    finds is a record of the list with that key, and of the records that share
    a key the one that comes last in the list is found. *)
Theorem asMap_last_wins (keyFunc : EventType → string) (l1 l2 : list EventType) (x : EventType) :
  (∀ k, asMap (l1 ++ x :: l2) keyFunc !! k = None ↔ k ∉ keyFunc <$> (l1 ++ x :: l2)) ∧
  (∀ k y, asMap (l1 ++ x :: l2) keyFunc !! k = Some y → y ∈ l1 ++ x :: l2 ∧ keyFunc y = k) ∧
  ((∀ y, y ∈ l2 → keyFunc y ≠ keyFunc x) →
   asMap (l1 ++ x :: l2) keyFunc !! keyFunc x = Some x).
Proof.
  unfold asMap. split_and!.
  - intros k. rewrite asMap_lookup_foldl, lookup_empty.
    destruct (last _) as [y|] eqn:Hl.
    + split; [done|]. intros Hk. destruct Hk.
      apply last_Some in Hl as [l' Hl].
      assert (y ∈ filter (λ c, keyFunc c = k) (l1 ++ x :: l2)) as [<- Hy]%list_elem_of_filter
        by (rewrite Hl; apply elem_of_app; right; left).
      by apply list_elem_of_fmap_2.
    + split; [|done]. intros _ (y & -> & Hy)%list_elem_of_fmap.
      apply last_None in Hl.
      assert (y ∈ filter (λ c, keyFunc c = keyFunc y) (l1 ++ x :: l2)) as Hin
        by (by apply list_elem_of_filter).
      rewrite Hl in Hin. by apply elem_of_nil in Hin.
  - intros k y. rewrite asMap_lookup_foldl, lookup_empty.
    destruct (last _) as [z|] eqn:Hl; [|done]. intros [= ->].
    apply last_Some in Hl as [l' Hl].
    assert (y ∈ filter (λ c, keyFunc c = k) (l1 ++ x :: l2)) as [? ?]%list_elem_of_filter
      by (rewrite Hl; apply elem_of_app; right; left).
    done.
  - intros Hl2. rewrite asMap_lookup_foldl, lookup_empty.
    rewrite filter_app, filter_cons, decide_True by done.
    rewrite (elem_of_nil_inv (filter _ l2)).
    + by rewrite last_snoc.
    + intros y [Hk Hy]%list_elem_of_filter. by apply (Hl2 y).
Qed.

End MoreDiff.

(** ** More on the reconciler *)

Section MoreReconciler.

Context {T : Types} {X : Externals} {r : Reconciler} {lister : DeploymentLister}.

Implicit Types (src source : CouchDbSource) (w : World) (t : list Action).

#[local] Arguments IsNotFound : simpl never.
#[local] Arguments IsControlledBy : simpl never.
#[local] Arguments podSpecChanged : simpl never.
#[local] Arguments fmtV : simpl never.
#[local] Arguments Error : simpl never.
#[local] Arguments String.append : simpl never.
#[local] Arguments computeDiff : simpl never.

Ltac steps :=
  unfold status, Eventf in *;
  unfold mbind, mret, M_bind, M_ret, call, emit, getHeap, putHeap in *;
  cbn beta iota zeta in *.

Ltac all_steps := repeat (constructor; [reflexivity|]); constructor.

(** *** [podSpecChanged] *)

(** X6. [podSpecChanged] answers no exactly when the desired pod spec is a
    deep derivative of the current one and the two have the same number of
    containers with, position by position, equal lists of environment
    variables. *)
Theorem podSpecChanged_false (oldPodSpec newPodSpec : PodSpec) :
  podSpecChanged oldPodSpec newPodSpec = false ↔
  DeepDerivative newPodSpec oldPodSpec = true ∧
  Env <$> Containers newPodSpec = Env <$> Containers oldPodSpec.
Proof.
  rewrite podSpecChanged_no_drift, drift_envAt. unfold envAt. split.
  - intros Hno. split.
    + destruct (DeepDerivative newPodSpec oldPodSpec); [done|]. destruct Hno. by left.
    + apply list_eq. intros i. rewrite !list_lookup_fmap.
      destruct (decide (Env <$> Containers newPodSpec !! i = Env <$> Containers oldPodSpec !! i))
        as [|Hne]; [done|].
      destruct Hno. right. by exists i.
  - intros [Hdd Henv] [Hd|[i Hi]]; [congruence|].
    apply Hi. by rewrite <- !list_lookup_fmap, Henv.
Qed.

(** *** [makeEventSource] *)


(** *** [createReceiveAdapter] *)

Lemma writes_cons (a : Action) t :
  writes (a :: t) = if isWrite a then a :: writes t else writes t.
Proof.
  unfold writes. rewrite filter_cons.
  destruct (isWrite a); [by rewrite decide_True|by rewrite decide_False].
Qed.

Lemma writes_app t1 t2 : writes (t1 ++ t2) = writes t1 ++ writes t2.
Proof. apply filter_app. Qed.

Ltac count_writes := rewrite ?writes_cons; cbn; lia.

Lemma createReceiveAdapter_shape src sinkURI w :
  ∃ res w' t,
    createReceiveAdapter src sinkURI w = (res, w', t) ∧
    heap w' = heap w ∧
    Forall (λ a, isDeploymentStep a = true) t ∧
    (length (writes t) ≤ 1)%nat.
Proof.
  assert (∀ (res : option Deployment * option error) w' t,
            heap w' = heap w → Forall (λ a, isDeploymentStep a = true) t →
            (length (writes t) ≤ 1)%nat →
            ∃ res0 w0 t0, (res, w', t) = (res0, w0, t0) ∧ heap w0 = heap w ∧
                          Forall (λ a, isDeploymentStep a = true) t0 ∧
                          (length (writes t0) ≤ 1)%nat) as Hpack
    by (intros; by do 3 eexists).
  unfold createReceiveAdapter. steps.
  destruct (makeEventSource_run src w) as (res & -> & _). cbn.
  destruct res as [eventSource [err|]]; cbn.
  { apply Hpack; [done|all_steps|count_writes]. }
  destruct (deploymentsGet _ _ _) as [[ra|err] k2]; cbn.
  - destruct (negb _); cbn.
    { apply Hpack; [done|all_steps|count_writes]. }
    destruct (podSpecChanged _ _); cbn.
    + destruct (deploymentsUpdate _ _ _) as [[ra' [err|]] k3]; cbn;
        (apply Hpack; [done|all_steps|count_writes]).
    + apply Hpack; [done|all_steps|count_writes].
  - destruct (IsNotFound _); cbn.
    + destruct (deploymentsCreate _ _ _) as [[ra' err'] k3]; cbn.
      apply Hpack; [done|all_steps|count_writes].
    + apply Hpack; [done|all_steps|count_writes].
Qed.

(** X8. Whatever the cluster answers, [createReceiveAdapter] writes at most
    once, a create or an update of a deployment, and besides that only looks
    up the secret and the deployment and records events: it makes no call on
    event types and no call of the status. *)
Theorem createReceiveAdapter_one_write src sinkURI w :
  (length (writes (createReceiveAdapter src sinkURI w).2) ≤ 1)%nat ∧
  Forall (λ a, isDeploymentStep a = true) (createReceiveAdapter src sinkURI w).2.
Proof.
  destruct (createReceiveAdapter_shape src sinkURI w) as (res & w' & t & -> & _ & Hd & Hw).
  by split.
Qed.

(** X9. When the event source cannot be computed, [createReceiveAdapter]
    returns the error of [makeEventSource] as it is, with no deployment, and
    makes no further call: the deployment is not even looked up. *)
Theorem createReceiveAdapter_no_event_source src sinkURI w eventSource e w1 t1 :
  makeEventSource src w = ((eventSource, Some e), w1, t1) →
  createReceiveAdapter src sinkURI w = ((None, Some e), w1, t1).
Proof.
  intros Hsrc. unfold createReceiveAdapter. steps. rewrite Hsrc. cbn.
  by rewrite app_nil_r.
Qed.

(** X10. When the lookup of the deployment fails with an error that is not
    a not-found, [createReceiveAdapter] returns no deployment and a plain
    error [error getting receive adapter: ...] around the message of the
    lookup's error, and writes nothing. *)
Theorem createReceiveAdapter_lookup_fails src sinkURI w eventSource w1 t1 err k2 :
  makeEventSource src w = ((eventSource, None), w1, t1) →
  let expected :=
    MakeReceiveAdapter
      (mkReceiveAdapterArgs eventSource receiveAdapterImage src (Labels (Name src)) sinkURI)
      (heap w1) in
  deploymentsGet (Namespace src) (dName expected) (cluster w1) = (inr err, k2) →
  IsNotFound (Some err) = false →
  createReceiveAdapter src sinkURI w
  = ((None, Some (PlainError ("error getting receive adapter: " +:+ Error err))),
     mkWorld (heap w1) k2,
     t1 ++ [DeploymentsGet (Namespace src) (dName expected) (Some err)])
  ∧ writes (t1 ++ [DeploymentsGet (Namespace src) (dName expected) (Some err)]) = [].
Proof.
  intros Hsrc expected Hget Hnf. split.
  - unfold createReceiveAdapter. steps. rewrite Hsrc. cbn. fold expected.
    rewrite Hget. cbn. rewrite Hnf. cbn. reflexivity.
  - rewrite writes_app, (makeEventSource_writes _ _ _ _ _ Hsrc). by rewrite writes_cons.
Qed.

(** X11. When the deployment is controlled by the Source and its pod spec has
    changed, [createReceiveAdapter] returns the pair the update returned, and
    records the event [CouchDbSourceDeploymentUpdated] only when the update
    returned no error. *)
Theorem createReceiveAdapter_update_outcome src sinkURI w eventSource w1 t1 ra k2 ra' uerr k3 :
  makeEventSource src w = ((eventSource, None), w1, t1) →
  let expected :=
    MakeReceiveAdapter
      (mkReceiveAdapterArgs eventSource receiveAdapterImage src (Labels (Name src)) sinkURI)
      (heap w1) in
  let updated :=
    mkDeployment (dName ra) (dNamespace ra) (dController ra) (dPodSpec expected) (dRest ra) in
  deploymentsGet (Namespace src) (dName expected) (cluster w1) = (inl ra, k2) →
  IsControlledBy (dController ra) src = true →
  podSpecChanged (dPodSpec ra) (dPodSpec expected) = true →
  deploymentsUpdate (Namespace src) updated k2 = ((ra', uerr), k3) →
  createReceiveAdapter src sinkURI w
  = ((ra', uerr), mkWorld (heap w1) k3,
     t1 ++ [DeploymentsGet (Namespace src) (dName expected) None;
            DeploymentsUpdate (Namespace src) updated uerr]
        ++ match uerr with
           | Some _ => []
           | None => [RecorderEvent "Normal" "CouchDbSourceDeploymentUpdated"
                        "Deployment updated"]
           end).
Proof.
  intros Hsrc expected updated Hget Hown Hchanged Hupdate.
  unfold createReceiveAdapter. steps. rewrite Hsrc. cbn. fold expected.
  rewrite Hget. cbn. rewrite Hown. cbn. rewrite Hchanged. cbn. fold updated.
  rewrite Hupdate. destruct uerr; reflexivity.
Qed.

(** *** Event types *)

Lemma owned_foldl src (etl acc : list EventType) :
  foldl (λ eventTypes et,
           if IsControlledBy (etController et) src then eventTypes ++ [et] else eventTypes)
    acc etl
  = acc ++ filter (λ et, etController et = Some (UID src)) etl.
Proof.
  revert acc. induction etl as [|et l IH]; intros acc; cbn [foldl].
  - by rewrite app_nil_r.
  - rewrite IH, filter_cons. unfold IsControlledBy.
    destruct (decide (etController et = Some (UID src))) as [Hc|Hc].
    + rewrite bool_decide_eq_true_2 by done. by rewrite <- app_assoc.
    + by rewrite bool_decide_eq_false_2 by done.
Qed.

(** X12. [getEventTypes] returns the listed event types that have the
    Source as their controller, in the order of the lister, and only reads. *)
Theorem getEventTypes_owned src w etl k :
  eventTypesList (Namespace src) (Labels (Name src)) (cluster w) = (inl etl, k) →
  getEventTypes src w
  = ((filter (λ et, etController et = Some (UID src)) etl, None),
     mkWorld (heap w) k,
     [EventTypesList (Namespace src) (Labels (Name src)) None]).
Proof.
  intros Hlist. unfold getEventTypes, getLabelSelector. steps. rewrite Hlist. cbn.
  by rewrite owned_foldl.
Qed.

Lemma getEventTypes_writes src w res w' t :
  getEventTypes src w = (res, w', t) → writes t = [].
Proof.
  unfold getEventTypes. steps.
  destruct (eventTypesList _ _ _) as [[etl|err] k]; cbn; intros [= _ _ <-];
    by rewrite writes_cons.
Qed.

Lemma makeEventTypes_writes src w res w' t :
  makeEventTypes src w = (res, w', t) → writes t = [].
Proof.
  unfold makeEventTypes. steps.
  destruct (sinkRef (heap w) src) as [ref|]; [|by intros [= _ _ <-]].
  destruct (negb _); [by intros [= _ _ <-]|].
  destruct (makeEventSource src w) as [[[origin err] w1] t1] eqn:Hsrc.
  apply makeEventSource_writes in Hsrc.
  destruct err; cbn; intros [= _ _ <-]; by rewrite app_nil_r.
Qed.

(** X13. When the event types cannot be listed, or the expected ones cannot
    be made, [reconcileEventTypes] returns that error as it is and has written
    nothing: no event type is deleted or created. *)
Theorem reconcileEventTypes_read_failure src w e :
  (getEventTypes src w).1.1.2 = Some e ∨
  ((getEventTypes src w).1.1.2 = None ∧
   (makeEventTypes src (getEventTypes src w).1.2).1.1.2 = Some e) →
  ∃ w' t, reconcileEventTypes src w = (Some e, w', t) ∧ writes t = [].
Proof.
  unfold reconcileEventTypes. steps.
  destruct (getEventTypes src w) as [[[current err] w1] t1] eqn:Hcur. cbn.
  apply getEventTypes_writes in Hcur.
  intros [->|[-> Hexp]]; cbn.
  - do 2 eexists. split; [reflexivity|]. by rewrite app_nil_r.
  - destruct (makeEventTypes src w1) as [[[expected err] w2] t2] eqn:Hmk. cbn in Hexp.
    subst err. apply makeEventTypes_writes in Hmk. cbn.
    do 2 eexists. split; [reflexivity|]. by rewrite app_nil_r, writes_app, Hcur, Hmk.
Qed.

(** X14. The steady state: when the listed records have pairwise distinct
    keys, every expected record has a listed record with its key and its spec,
    and every listed key is expected, [reconcileEventTypes] deletes nothing,
    creates nothing and returns no error. *)
Theorem reconcileEventTypes_steady src w current w1 t1 expected w2 t2 :
  getEventTypes src w = ((current, None), w1, t1) →
  makeEventTypes src w1 = ((expected, None), w2, t2) →
  NoDup (keyFromEventType <$> current) →
  (∀ e, e ∈ expected →
        ∃ c, c ∈ current ∧ keyFromEventType c = keyFromEventType e ∧ etSpec c = etSpec e) →
  (∀ c, c ∈ current → keyFromEventType c ∈ keyFromEventType <$> expected) →
  reconcileEventTypes src w = (None, w2, t1 ++ t2) ∧ writes (t1 ++ t2) = [].
Proof.
  intros Hcur Hexp Hnd Hall Hkeys. split.
  - unfold reconcileEventTypes. steps. rewrite Hcur. cbn. rewrite Hexp. cbn.
    rewrite (computeDiff_nothing_to_do current expected Hnd Hall Hkeys). cbn.
    by rewrite !app_nil_r.
  - by rewrite writes_app, (getEventTypes_writes _ _ _ _ _ Hcur),
      (makeEventTypes_writes _ _ _ _ _ Hexp).
Qed.

(** *** The steps of [ReconcileKind] *)

Lemma getEventTypes_steps src w res w' t :
  getEventTypes src w = (res, w', t) → Forall (λ a, isEventTypeStep a = true) t.
Proof.
  unfold getEventTypes. steps.
  destruct (eventTypesList _ _ _) as [[etl|err] k]; cbn; intros [= _ _ <-]; all_steps.
Qed.

Lemma makeEventTypes_steps src w res w' t :
  makeEventTypes src w = (res, w', t) → Forall (λ a, isEventTypeStep a = true) t.
Proof.
  unfold makeEventTypes. steps.
  destruct (sinkRef (heap w) src) as [ref|]; [|intros [= _ _ <-]; constructor].
  destruct (negb _); [intros [= _ _ <-]; constructor|].
  destruct (makeEventSource_run src w) as (res' & -> & _).
  destruct res' as [origin [err|]]; cbn; intros [= _ _ <-]; all_steps.
Qed.

Lemma deleteEventTypes_steps namespace (l : list EventType) w :
  Forall (λ a, isEventTypeStep a = true) (deleteEventTypes namespace l w).2.
Proof.
  destruct (deleteEventTypes_run namespace l w) as (err & w' & ds & n & -> & _ & Hds & _).
  cbn. induction Hds as [|a et ds l' Ha _ IH]; constructor; [by rewrite Ha|done].
Qed.

Lemma createEventTypes_steps namespace (l : list EventType) w :
  Forall (λ a, isEventTypeStep a = true) (createEventTypes namespace l w).2.
Proof.
  destruct (createEventTypes_run namespace l w) as (err & w' & cs & n & -> & _ & Hcs & _).
  cbn. induction Hcs as [|a et cs l' Ha _ IH]; constructor; [by rewrite Ha|done].
Qed.

Lemma reconcileEventTypes_steps src w :
  Forall (λ a, isEventTypeStep a = true) (reconcileEventTypes src w).2.
Proof.
  unfold reconcileEventTypes. steps.
  destruct (getEventTypes src w) as [[[current err] w1] t1] eqn:Hcur.
  apply getEventTypes_steps in Hcur. destruct err; cbn; [by rewrite app_nil_r|].
  destruct (makeEventTypes src w1) as [[[expected err] w2] t2] eqn:Hexp.
  apply makeEventTypes_steps in Hexp.
  destruct err; cbn; [rewrite app_nil_r; by apply Forall_app|].
  destruct (computeDiff current expected) as [toCreate toDelete].
  pose proof (deleteEventTypes_steps (Namespace src) toDelete w2) as Hd.
  destruct (deleteEventTypes (Namespace src) toDelete w2) as [[errd wd] ds]. cbn in Hd.
  destruct errd; cbn; [rewrite app_nil_r; by repeat apply Forall_app_2|].
  pose proof (createEventTypes_steps (Namespace src) toCreate wd) as Hc.
  destruct (createEventTypes (Namespace src) toCreate wd) as [[errc wc] cs]. cbn in Hc.
  destruct errc; cbn; rewrite app_nil_r; by repeat apply Forall_app_2.
Qed.

Lemma ReconcileKind_structure source w sink :
  Sink (Spec source) = Some sink →
  ∃ res w' rerr rest,
    ReconcileKind source w
    = (res, w',
       StatusCall InitializeConditions
       :: ResolveCall (readDest (sinkDestination sink (Namespace source) (heap w)).2
                         (sinkDestination sink (Namespace source) (heap w)).1) rerr
       :: rest) ∧
    ((∃ e, rerr = Some e ∧ rest = [StatusCall (MarkNoSink "NotFound" "")] ∧
           res.2 = Some (PlainError ("getting sink URI: " +:+ Error e))) ∨
     (∃ uri t_d m,
        rerr = None ∧
        m = (if deprecatedRef
                  (loadDest (sinkDestination sink (Namespace source) (heap w)).2 sink)
             then MarkSinkWarnRefDeprecated uri else MarkSink uri) ∧
        Forall (λ a, isDeploymentStep a = true) t_d ∧
        (length (writes t_d) ≤ 1)%nat ∧
        ((rest = StatusCall m :: t_d ∧ is_Some res.2) ∨
         (∃ ra t_e,
            Forall (λ a, isEventTypeStep a = true) t_e ∧ is_Some res.2 ∧
            rest = StatusCall m :: t_d ++ StatusCall (PropagateDeploymentAvailability ra)
                   :: t_e ++ [StatusCall (MarkNoEventTypes "EventTypesReconcileFailed" "")]) ∨
         (∃ ra t_e,
            Forall (λ a, isEventTypeStep a = true) t_e ∧ res.2 = None ∧
            rest = StatusCall m :: t_d ++ StatusCall (PropagateDeploymentAvailability ra)
                   :: t_e ++ [StatusCall MarkEventTypes])))).
Proof.
  intros Hsink. unfold ReconcileKind. steps. cbn. rewrite Hsink.
  destruct (sinkDestination sink (Namespace source) (heap w)) as [dest h]. cbn.
  destruct (URIFromDestination _ _ _ _) as [[sinkURI|rerr] k]; cbn.
  - fold (deprecatedRef (loadDest h sink)).
    set (mark := if deprecatedRef _ then _ else _).
    assert (∃ source1,
              mark = (λ w, (source1, w,
                            [StatusCall (if deprecatedRef (loadDest h sink)
                                         then MarkSinkWarnRefDeprecated sinkURI
                                         else MarkSink sinkURI)])))
      as (source1 & ->).
    { subst mark. destruct (deprecatedRef _); by eexists. }
    destruct (createReceiveAdapter_shape source1 sinkURI (mkWorld h k))
      as ([ra err] & w1 & t_d & -> & _ & Hsteps & Hwrites).
    destruct err as [err|]; cbn.
    + do 4 eexists. split; [reflexivity|]. right. exists sinkURI, t_d. eexists.
      split_and!; [done..|]. left. by rewrite app_nil_r.
    + pose proof (reconcileEventTypes_steps
                    (mkCouchDbSource (Name source1) (Namespace source1) (UID source1)
                       (Spec source1)
                       (applyStatus (PropagateDeploymentAvailability ra) (Status source1)))
                    w1) as Het.
      destruct (reconcileEventTypes _ w1) as [[err w2] t_e]. cbn in Het.
      destruct err as [err|]; cbn.
      * do 4 eexists. split; [reflexivity|]. right. exists sinkURI, t_d. eexists.
        split_and!; [done..|]. right. left. by exists ra, t_e.
      * do 4 eexists. split; [reflexivity|]. right. exists sinkURI, t_d. eexists.
        split_and!; [done..|]. right. right. by exists ra, t_e.
  - do 4 eexists. split; [reflexivity|]. left. by exists rerr.
Qed.

(** X15. When the sink is not resolved, [ReconcileKind] marks the sink
    condition with the reason [NotFound] and returns a plain error
    [getting sink URI: ...] around the message of the resolver's error; its
    only call is the resolution, so the secret is not read and nothing is
    written. *)
Theorem ReconcileKind_sink_not_resolved source w sink err k :
  Sink (Spec source) = Some sink →
  let dest := (sinkDestination sink (Namespace source) (heap w)).1 in
  let h := (sinkDestination sink (Namespace source) (heap w)).2 in
  let initialized :=
    mkCouchDbSource (Name source) (Namespace source) (UID source) (Spec source)
      (applyStatus InitializeConditions (Status source)) in
  URIFromDestination (readDest h dest) initialized h (cluster w) = (inr err, k) →
  ReconcileKind source w
  = ((mkCouchDbSource (Name source) (Namespace source) (UID source) (Spec source)
        (applyStatus (MarkNoSink "NotFound" "")
           (applyStatus InitializeConditions (Status source))),
      Some (PlainError ("getting sink URI: " +:+ Error err))),
     mkWorld h k,
     [StatusCall InitializeConditions; ResolveCall (readDest h dest) (Some err);
      StatusCall (MarkNoSink "NotFound" "")]).
Proof.
  intros Hsink dest h initialized. subst dest h initialized.
  unfold ReconcileKind. steps. cbn. rewrite Hsink.
  destruct (sinkDestination sink (Namespace source) (heap w)) as [dest h]. cbn.
  intros ->. reflexivity.
Qed.

Lemma statusCalls_app t1 t2 : statusCalls (t1 ++ t2) = statusCalls t1 ++ statusCalls t2.
Proof. apply omap_app. Qed.

Lemma statusCalls_cons (a : Action) t :
  statusCalls (a :: t)
  = match a with
    | StatusCall op => op :: statusCalls t
    | _ => statusCalls t
    end.
Proof. by destruct a. Qed.

#[local] Arguments statusCalls : simpl never.

Lemma statusCalls_deployment_steps t :
  Forall (λ a, isDeploymentStep a = true) t → statusCalls t = [].
Proof.
  intros Hall. apply omap_none. intros a Ha.
  rewrite Forall_forall in Hall. specialize (Hall a Ha). by destruct a.
Qed.

Lemma statusCalls_event_type_steps t :
  Forall (λ a, isEventTypeStep a = true) t → statusCalls t = [].
Proof.
  intros Hall. apply omap_none. intros a Ha.
  rewrite Forall_forall in Hall. specialize (Hall a Ha). by destruct a.
Qed.

(** The status [ReconcileKind] returns is the status it was given with its
    calls on the status applied in order. *)
Lemma ReconcileKind_status source w :
  Status (ReconcileKind source w).1.1.1
  = foldl (λ st op, applyStatus op st) (Status source)
      (statusCalls (ReconcileKind source w).2).
Proof.
  destruct (Sink (Spec source)) as [sink|] eqn:Hsink;
    [|by rewrite (ReconcileKind_no_sink_run source w Hsink)].
  unfold ReconcileKind. steps. cbn. rewrite Hsink.
  destruct (sinkDestination sink (Namespace source) (heap w)) as [dest h]. cbn.
  destruct (URIFromDestination _ _ _ _) as [[sinkURI|rerr] k]; cbn; [|done].
  fold (deprecatedRef (loadDest h sink)).
  set (mark := if deprecatedRef _ then _ else _).
  assert (∃ m,
            mark = (λ w, (mkCouchDbSource (Name source) (Namespace source) (UID source)
                            (Spec source)
                            (applyStatus m (applyStatus InitializeConditions (Status source))),
                          w, [StatusCall m])))
    as (m & ->).
  { subst mark. destruct (deprecatedRef _); by eexists. }
  set (source1 := mkCouchDbSource _ _ _ _ _).
  destruct (createReceiveAdapter_shape source1 sinkURI (mkWorld h k))
    as ([ra err] & w1 & t_d & -> & _ & Hd & _).
  apply statusCalls_deployment_steps in Hd.
  destruct err as [err|]; cbn.
  - by rewrite app_nil_r, !statusCalls_cons, Hd.
  - pose proof (reconcileEventTypes_steps
                  (mkCouchDbSource (Name source1) (Namespace source1) (UID source1)
                     (Spec source1)
                     (applyStatus (PropagateDeploymentAvailability ra) (Status source1)))
                  w1) as He.
    destruct (reconcileEventTypes _ w1) as [[err w2] t_e]. cbn in He.
    apply statusCalls_event_type_steps in He.
    destruct err as [err|]; cbn;
      by rewrite !statusCalls_cons, statusCalls_app, Hd, statusCalls_cons, statusCalls_app, He,
           statusCalls_cons.
Qed.

(** C8 (as amended). Whenever [ReconcileKind] returns an error, the status it
    returns is the status it was given with its calls on the status applied,
    and one of them sets a condition. The actions are of one of four shapes.
    With no sink, and with a sink that is not resolved, [MarkNoSink] records
    the failure. When the event types are not reconciled, [MarkNoEventTypes]
    records it. When the deployment is not reconciled, the only condition set
    is that of the sink, by [MarkSink] or [MarkSinkWarnRefDeprecated] before
    the deployment step: the actions after it are those of the deployment
    step, and no call on the status records the failure. *)
Theorem ReconcileKind_error_marks_condition source w source' e w' t :
  ReconcileKind source w = ((source', Some e), w', t) →
  Status source' = foldl (λ st op, applyStatus op st) (Status source) (statusCalls t) ∧
  (∃ op, StatusCall op ∈ t ∧ marksCondition op = true) ∧
  (t = [StatusCall InitializeConditions; StatusCall (MarkNoSink "SinkMissing" "")] ∨
   (∃ dest rerr,
      t = [StatusCall InitializeConditions; ResolveCall dest (Some rerr);
           StatusCall (MarkNoSink "NotFound" "")]) ∨
   (∃ dest uri m t_d,
      (m = MarkSink uri ∨ m = MarkSinkWarnRefDeprecated uri) ∧
      Forall (λ a, isDeploymentStep a = true) t_d ∧
      t = StatusCall InitializeConditions :: ResolveCall dest None :: StatusCall m :: t_d ∧
      ¬ ∃ op, StatusCall op ∈ t ∧ marksFailure op = true) ∨
   (∃ dest uri m t_d ra t_e,
      (m = MarkSink uri ∨ m = MarkSinkWarnRefDeprecated uri) ∧
      Forall (λ a, isDeploymentStep a = true) t_d ∧
      Forall (λ a, isEventTypeStep a = true) t_e ∧
      t = StatusCall InitializeConditions :: ResolveCall dest None :: StatusCall m
          :: t_d ++ StatusCall (PropagateDeploymentAvailability ra)
          :: t_e ++ [StatusCall (MarkNoEventTypes "EventTypesReconcileFailed" "")])).
Proof.
  intros Hrun. split.
  { pose proof (ReconcileKind_status source w) as Hst. by rewrite Hrun in Hst. }
  destruct (Sink (Spec source)) as [sink|] eqn:Hsink.
  - destruct (ReconcileKind_structure source w sink Hsink)
      as (res & w1 & rerr & rest & Heq & Hcases).
    rewrite Hrun in Heq. injection Heq as <- <- ->. cbn [fst snd] in Hcases.
    destruct Hcases as [(e' & -> & -> & _)|(uri & t_d & m & -> & Hm & Hd & _ & Hcases)].
    { split; [|right; left; by do 2 eexists].
      exists (MarkNoSink "NotFound" ""). split; [|done]. do 2 right. left. }
    assert (m = MarkSink uri ∨ m = MarkSinkWarnRefDeprecated uri) as Hmark
      by (subst m; destruct (deprecatedRef _); auto).
    assert (marksCondition m = true ∧ marksFailure m = false) as [Hmc Hmf]
      by (by destruct Hmark as [->| ->]).
    split; [exists m; split; [|done]; destruct Hcases as [[-> _]|[(? & ? & _ & _ & ->)|
                                                         (? & ? & _ & _ & ->)]];
            do 2 right; left|].
    destruct Hcases as [[-> _]|[(ra & t_e & He & _ & ->)|(ra & t_e & _ & [=] & _)]].
    + right. right. left. do 2 eexists. exists m, t_d. split_and!; [done|done|done|].
      intros (op & Hin & Hop).
      apply elem_of_cons in Hin as [[=]|Hin]; [by subst|].
      apply elem_of_cons in Hin as [[=]|Hin].
      apply elem_of_cons in Hin as [[= ->]|Hin]; [congruence|].
      rewrite Forall_forall in Hd. by specialize (Hd _ Hin).
    + right. right. right. do 2 eexists. exists m, t_d, ra, t_e. by split_and!.
  - rewrite (ReconcileKind_no_sink_run source w Hsink) in Hrun. injection Hrun as _ _ _ <-.
    split; [|by left]. exists (MarkNoSink "SinkMissing" ""). split; [right; left|done].
Qed.

(** X16. The calls [ReconcileKind] makes on the status of the Source are one
    of five sequences, and an error is returned after all but the last: the
    conditions are initialized; then the sink is marked missing, or not
    found, or resolved; after a resolved sink and a reconciled deployment the
    availability of the deployment is propagated; and then the event types are
    marked as failed or, at the end of a pass without error, as ready. *)
Theorem ReconcileKind_status_calls source w :
  let err := (ReconcileKind source w).1.1.2 in
  let calls := statusCalls (ReconcileKind source w).2 in
  (calls = [InitializeConditions; MarkNoSink "SinkMissing" ""] ∧ is_Some err) ∨
  (calls = [InitializeConditions; MarkNoSink "NotFound" ""] ∧ is_Some err) ∨
  (∃ uri m,
     (m = MarkSink uri ∨ m = MarkSinkWarnRefDeprecated uri) ∧
     ((calls = [InitializeConditions; m] ∧ is_Some err) ∨
      (∃ ra, calls = [InitializeConditions; m; PropagateDeploymentAvailability ra;
                      MarkNoEventTypes "EventTypesReconcileFailed" ""] ∧ is_Some err) ∨
      (∃ ra, calls = [InitializeConditions; m; PropagateDeploymentAvailability ra;
                      MarkEventTypes] ∧ err = None))).
Proof.
  intros err calls. subst err calls.
  destruct (Sink (Spec source)) as [sink|] eqn:Hsink.
  - destruct (ReconcileKind_structure source w sink Hsink)
      as (res & w' & rerr & rest & -> & Hcases). cbn [fst snd].
    destruct Hcases as [(e & -> & -> & ->)|(uri & t_d & m & -> & Hm & Hd & _ & Hcases)].
    { right. left. split; [|done]. by rewrite !statusCalls_cons. }
    right. right. exists uri, m. split; [subst m; destruct (deprecatedRef _); auto|].
    apply statusCalls_deployment_steps in Hd.
    destruct Hcases as [[-> Herr]|[(ra & t_e & He & Herr & ->)|(ra & t_e & He & Herr & ->)]].
    + left. split; [|done]. by rewrite !statusCalls_cons, Hd.
    + right. left. exists ra. split; [|done]. apply statusCalls_event_type_steps in He.
      rewrite !statusCalls_cons, statusCalls_app, Hd, statusCalls_cons, statusCalls_app, He.
      by rewrite statusCalls_cons.
    + right. right. exists ra. split; [|done]. apply statusCalls_event_type_steps in He.
      rewrite !statusCalls_cons, statusCalls_app, Hd, statusCalls_cons, statusCalls_app, He.
      by rewrite statusCalls_cons.
  - rewrite (ReconcileKind_no_sink_run source w Hsink). left. by split.
Qed.

(** X17. [ReconcileKind] reconciles the deployment before the event types,
    and writes only after the sink is resolved: its actions split into a part
    without a call on event types followed by a part without a call on
    deployments, and when something is written the actions start with the
    initialization of the conditions and a resolution without error. *)
Theorem ReconcileKind_order source w :
  (∃ before after,
     (ReconcileKind source w).2 = before ++ after ∧
     Forall (λ a, isEventTypeCall a = false) before ∧
     Forall (λ a, isDeploymentCall a = false) after) ∧
  (writes (ReconcileKind source w).2 ≠ [] →
   ∃ dest rest,
     (ReconcileKind source w).2
     = StatusCall InitializeConditions :: ResolveCall dest None :: rest).
Proof.
  assert (∀ t, Forall (λ a, isDeploymentStep a = true) t →
               Forall (λ a, isEventTypeCall a = false) t) as Hdep.
  { intros t Hall. eapply Forall_impl; [exact Hall|]. intros a Ha. by destruct a. }
  assert (∀ t, Forall (λ a, isEventTypeStep a = true) t →
               Forall (λ a, isDeploymentCall a = false) t) as Hev.
  { intros t Hall. eapply Forall_impl; [exact Hall|]. intros a Ha. by destruct a. }
  destruct (Sink (Spec source)) as [sink|] eqn:Hsink.
  - destruct (ReconcileKind_structure source w sink Hsink)
      as (res & w' & rerr & rest & -> & Hcases). cbn [fst snd].
    destruct Hcases as [(e & -> & -> & _)|(uri & t_d & m & -> & _ & Hd & _ & Hcases)].
    { split.
      - eexists _, []. rewrite app_nil_r. split; [reflexivity|]. split; all_steps.
      - intros Hw. destruct Hw. by rewrite !writes_cons. }
    split; [|by eauto].
    destruct Hcases as [[-> _]|[(ra & t_e & He & _ & ->)|(ra & t_e & He & _ & ->)]].
    + eexists _, []. rewrite app_nil_r. split; [reflexivity|]. split; [|constructor].
      do 3 (constructor; [done|]). by apply Hdep.
    + eexists (_ :: _ :: _ :: t_d), _. split; [reflexivity|]. split.
      * do 3 (constructor; [done|]). by apply Hdep.
      * constructor; [done|]. apply Forall_app. split; [by apply Hev|all_steps].
    + eexists (_ :: _ :: _ :: t_d), _. split; [reflexivity|]. split.
      * do 3 (constructor; [done|]). by apply Hdep.
      * constructor; [done|]. apply Forall_app. split; [by apply Hev|all_steps].
  - rewrite (ReconcileKind_no_sink_run source w Hsink). cbn [snd]. split.
    + eexists _, []. rewrite app_nil_r. split; [reflexivity|]. split; all_steps.
    + intros Hw. destruct Hw. by rewrite !writes_cons.
Qed.

(** X18. The warning about a deprecated reference is decided on the sink of
    the Source as it was handed in: [MarkSinkWarnRefDeprecated] is called only
    when the deprecated API version, kind and name of the sink are all set,
    and [MarkSink] only when one of them is not. *)
Theorem ReconcileKind_sink_mark source w sink uri :
  Sink (Spec source) = Some sink →
  sinkAllocated (heap w) source →
  (StatusCall (MarkSinkWarnRefDeprecated uri) ∈ (ReconcileKind source w).2 →
   deprecatedRef (loadDest (heap w) sink) = true) ∧
  (StatusCall (MarkSink uri) ∈ (ReconcileKind source w).2 →
   deprecatedRef (loadDest (heap w) sink) = false).
Proof.
  intros Hsink Hwf. destruct (Hwf sink Hsink) as [Hp Ho].
  destruct (sinkDestination_frame sink (Namespace source) (heap w) Hp Ho) as (Hload & _ & _).
  assert (∀ t op, Forall (λ a, isDeploymentStep a = true) t → StatusCall op ∉ t) as Hdep.
  { intros t op Hall Hin. rewrite Forall_forall in Hall. by specialize (Hall _ Hin). }
  assert (∀ t op, Forall (λ a, isEventTypeStep a = true) t → StatusCall op ∉ t) as Hev.
  { intros t op Hall Hin. rewrite Forall_forall in Hall. by specialize (Hall _ Hin). }
  destruct (ReconcileKind_structure source w sink Hsink)
    as (res & w' & rerr & rest & -> & Hcases). cbn [fst snd]. rewrite Hload in Hcases.
  assert (∀ op, (op = MarkSinkWarnRefDeprecated uri ∨ op = MarkSink uri) →
                StatusCall op ∈ StatusCall InitializeConditions :: ResolveCall
                  (readDest (sinkDestination sink (Namespace source) (heap w)).2
                     (sinkDestination sink (Namespace source) (heap w)).1) rerr :: rest →
                ∃ uri', op = (if deprecatedRef (loadDest (heap w) sink)
                              then MarkSinkWarnRefDeprecated uri' else MarkSink uri'))
    as Hmark.
  { intros op Hop Hin.
    apply elem_of_cons in Hin as [Hin|Hin]; [destruct Hop; by simplify_eq|].
    apply elem_of_cons in Hin as [Hin|Hin]; [done|].
    destruct Hcases as [(e & -> & -> & _)|(uri' & t_d & m & -> & -> & Hd & _ & Hcases)].
    { apply list_elem_of_singleton in Hin. destruct Hop; by simplify_eq. }
    exists uri'.
    destruct Hcases as [[-> _]|[(ra & t_e & He & _ & ->)|(ra & t_e & He & _ & ->)]].
    - apply elem_of_cons in Hin as [Hin|Hin]; [by simplify_eq|]. by apply Hdep in Hin.
    - apply elem_of_cons in Hin as [Hin|Hin]; [by simplify_eq|].
      apply elem_of_app in Hin as [Hin|Hin]; [by apply Hdep in Hin|].
      apply elem_of_cons in Hin as [Hin|Hin]; [destruct Hop; by simplify_eq|].
      apply elem_of_app in Hin as [Hin|Hin]; [by apply Hev in Hin|].
      apply list_elem_of_singleton in Hin. destruct Hop; by simplify_eq.
    - apply elem_of_cons in Hin as [Hin|Hin]; [by simplify_eq|].
      apply elem_of_app in Hin as [Hin|Hin]; [by apply Hdep in Hin|].
      apply elem_of_cons in Hin as [Hin|Hin]; [destruct Hop; by simplify_eq|].
      apply elem_of_app in Hin as [Hin|Hin]; [by apply Hev in Hin|].
      apply list_elem_of_singleton in Hin. destruct Hop; by simplify_eq. }
  split; intros Hin.
  - destruct (Hmark _ (or_introl eq_refl) Hin) as [uri' Heq].
    by destruct (deprecatedRef _).
  - destruct (Hmark _ (or_intror eq_refl) Hin) as [uri' Heq].
    by destruct (deprecatedRef _).
Qed.

(** *** [getReceiveAdapter] *)

Lemma find_first {A : Type} (f : A → bool) (l : list A) (x : A) :
  find f l = Some x →
  ∃ before after, l = before ++ x :: after ∧ f x = true ∧ Forall (λ y, f y = false) before.
Proof.
  induction l as [|y l IH]; [done|]. cbn. destruct (f y) eqn:Hy.
  - intros [= ->]. by exists [], l.
  - intros (before & after & -> & Hx & Hb)%IH.
    exists (y :: before), after. split_and!; [done|done|by constructor].
Qed.

(** X19. The deployment [getReceiveAdapter] returns is the first listed
    deployment that has the Source as its controller: no deployment listed
    before it is controlled by the Source. *)
Theorem getReceiveAdapter_first_owned src (k k' : Cluster) dep :
  getReceiveAdapter src k = ((Some dep, None), k') →
  ∃ before after,
    deploymentsList (Namespace src) (Labels (Name src)) k = (inl (before ++ dep :: after), k') ∧
    dController dep = Some (UID src) ∧
    Forall (λ d, dController d ≠ Some (UID src)) before.
Proof.
  unfold getReceiveAdapter, getLabelSelector.
  destruct (deploymentsList _ _ _) as [[dl|err] k0]; [|done].
  destruct (find _ dl) as [d|] eqn:Hfind; [|done]. intros [= -> ->].
  apply find_first in Hfind as (before & after & -> & Hc & Hb).
  exists before, after. split_and!; [done|by apply bool_decide_eq_true in Hc|].
  eapply Forall_impl; [exact Hb|]. intros d Hd. by apply bool_decide_eq_false in Hd.
Qed.

(** X20. When the lister answers and no listed deployment has the Source as
    its controller, [getReceiveAdapter] returns no deployment and an error
    that [IsNotFound] recognizes. *)
Theorem getReceiveAdapter_not_found src (k k' : Cluster) dl :
  deploymentsList (Namespace src) (Labels (Name src)) k = (inl dl, k') →
  Forall (λ d, dController d ≠ Some (UID src)) dl →
  ∃ e, getReceiveAdapter src k = ((None, Some e), k') ∧ IsNotFound (Some e) = true.
Proof.
  intros Hlist Hnone. unfold getReceiveAdapter, getLabelSelector. rewrite Hlist.
  destruct (find _ dl) as [d|] eqn:Hfind.
  - apply find_first in Hfind as (before & after & -> & Hc & _).
    apply Forall_app in Hnone as [_ Hnone]. apply Forall_cons in Hnone as [Hd _].
    by apply bool_decide_eq_true in Hc.
  - by eexists.
Qed.

End MoreReconciler.

(** ** The theorems at work on the in-memory cluster *)

Import Fake.

(** C9 at work: the secret of the Source has the key [username] only. *)
Lemma makeEventSource_missing_url_witness :
  makeEventSource (source None) worldWithoutUrl
  = (("", None), worldWithoutUrl, [SecretsGet "default" "couchdb-binding" None]).
Proof.
  refine (proj1 (makeEventSource_missing_url (source None) worldWithoutUrl
                   credentialsWithoutUrl (cluster worldWithoutUrl) _ _)).
  - vm_compute. reflexivity.
  - vm_compute. reflexivity.
Defined.

(** C10 at work: there is no deployment, and the cluster refuses to create
    one. *)
Lemma createReceiveAdapter_not_found_witness :
  createReceiveAdapter (source None) sinkURI worldFailingCreate
  = ((None, Some (StatusError "Forbidden" "deployments is forbidden")),
     worldFailingCreate,
     [SecretsGet "default" "couchdb-binding" None;
      DeploymentsGet "default" "couchdbsource-orders-source" (Some (notFound "deployment"));
      DeploymentsCreate "default"
        (mkDeployment "couchdbsource-orders-source" "default" (Some "uid-1") desiredPodSpec 1)
        (Some (StatusError "Forbidden" "deployments is forbidden"));
      RecorderEvent "Normal" "CouchDbSourceDeploymentCreated"
        "Deployment created, error: deployments is forbidden"]).
Proof.
  refine (createReceiveAdapter_not_found (source None) sinkURI worldFailingCreate origin
            worldFailingCreate [SecretsGet "default" "couchdb-binding" None]
            (notFound "deployment") (cluster worldFailingCreate) None
            (Some (StatusError "Forbidden" "deployments is forbidden"))
            (cluster worldFailingCreate) _ _ _ _); vm_compute; reflexivity.
Defined.

(** C3 at work: the deployment of the derived name is controlled by another
    object. *)
Lemma createReceiveAdapter_not_owned_witness :
  createReceiveAdapter (source None) sinkURI worldWithForeign
  = ((None,
      Some (PlainError ("deployment 'couchdbsource-orders-source' is not owned by "
                        +:+ "CouchDbSource 'orders-source'"))),
     worldWithForeign,
     [SecretsGet "default" "couchdb-binding" None;
      DeploymentsGet "default" "couchdbsource-orders-source" None])
  ∧ writes [SecretsGet "default" "couchdb-binding" None;
            DeploymentsGet "default" "couchdbsource-orders-source" None] = [].
Proof.
  refine (createReceiveAdapter_not_owned (source None) sinkURI worldWithForeign origin
            worldWithForeign [SecretsGet "default" "couchdb-binding" None]
            foreignDeployment (cluster worldWithForeign) _ _ _); vm_compute; reflexivity.
Defined.

(** C3 (counterexample). A deployment of the derived name that another object
    controls: the error returned is a plain one, which the caller retries. *)
Lemma createReceiveAdapter_not_owned_retried :
  deploymentsGet "default" "couchdbsource-orders-source" (cluster worldWithForeign)
  = (inl foreignDeployment, cluster worldWithForeign) ∧
  IsControlledBy (dController foreignDeployment) (source None) = false ∧
  ∃ e, (createReceiveAdapter (source None) sinkURI worldWithForeign).1.1 = (None, Some e) ∧
       ¬ nonRetryable (Some e).
Proof.
  split_and!; [by vm_compute..|].
  eexists. split; [by vm_compute|]. by intros [_ [=]].
Qed.

(** C2 at work: the deployment of the Source has another sink in the
    environment of its container. *)
Lemma createReceiveAdapter_owned_witness :
  ∃ res w' t,
    createReceiveAdapter (source None) sinkURI worldWithDrift = (res, w', t) ∧
    ((∃ a, a ∈ t ∧ isUpdate a = true) ↔ drift (dPodSpec driftedDeployment) desiredPodSpec) ∧
    (drift (dPodSpec driftedDeployment) desiredPodSpec →
     ∃ err, writes t
            = [DeploymentsUpdate "default"
                 (mkDeployment "couchdbsource-orders-source" "default" (Some "uid-1")
                    desiredPodSpec 1) err]) ∧
    (¬ drift (dPodSpec driftedDeployment) desiredPodSpec →
     res = (Some driftedDeployment, None) ∧ writes t = []) ∧
    (DeepDerivative desiredPodSpec (dPodSpec driftedDeployment) = true →
     (∃ i, envAt desiredPodSpec i ≠ envAt (dPodSpec driftedDeployment) i) →
     ∃ a, a ∈ t ∧ isUpdate a = true) ∧
    (DeepDerivative desiredPodSpec desiredPodSpec = true →
     dPodSpec driftedDeployment = desiredPodSpec →
     res = (Some driftedDeployment, None) ∧ writes t = []).
Proof.
  refine (createReceiveAdapter_owned (source None) sinkURI worldWithDrift origin
            worldWithDrift [SecretsGet "default" "couchdb-binding" None]
            driftedDeployment (cluster worldWithDrift) _ _ _); vm_compute; reflexivity.
Defined.

(** The deployment with the old sink in its environment is updated. *)
Example createReceiveAdapter_updates_drifted :
  drift (dPodSpec driftedDeployment) desiredPodSpec ∧
  writes (createReceiveAdapter (source None) sinkURI worldWithDrift).2
  = [DeploymentsUpdate "default"
       (mkDeployment "couchdbsource-orders-source" "default" (Some "uid-1") desiredPodSpec 1)
       None].
Proof.
  split; [|by vm_compute]. right. right. exists 0%nat. do 2 eexists.
  split_and!; [reflexivity|reflexivity|by intros [=]].
Qed.

(** C2 (counterexample). The deployment of the Source has the desired
    container, as it is desired, and a second container: the pod spec has not
    drifted as the specification words drift, and the deployment is updated. *)
Lemma createReceiveAdapter_extra_container :
  deploymentsGet "default" "couchdbsource-orders-source" (cluster worldWithSidecar)
  = (inl sidecarDeployment, cluster worldWithSidecar) ∧
  IsControlledBy (dController sidecarDeployment) (source None) = true ∧
  ¬ driftAsWorded (dPodSpec sidecarDeployment) desiredPodSpec ∧
  writes (createReceiveAdapter (source None) sinkURI worldWithSidecar).2
  = [DeploymentsUpdate "default"
       (mkDeployment "couchdbsource-orders-source" "default" (Some "uid-1") desiredPodSpec 1)
       None].
Proof.
  split_and!; [by vm_compute|by vm_compute| |by vm_compute].
  intros [Hdd|(i & e & e' & Hd & Hc & Hne)]; [by vm_compute in Hdd|].
  destruct i as [|i]; vm_compute in Hd; [|by destruct i].
  vm_compute in Hc. congruence.
Qed.





(** The delete of the stale record fails: it is the only call of the apply
    step, no create follows, and its error is returned. *)
Example reconcileEventTypes_delete_fails :
  reconcileEventTypes (source (Some 1%positive)) worldFailingDelete
  = (Some (StatusError "Conflict" "the object has been modified"),
     worldFailingDelete,
     [EventTypesList "default" (Labels "orders-source") None;
      SecretsGet "default" "couchdb-binding" None;
      EventTypesDelete "default" "update-1"
        (Some (StatusError "Conflict" "the object has been modified"))]).
Proof. vm_compute. reflexivity. Qed.

(** C6 at work: a Source without a sink. *)
Lemma ReconcileKind_no_sink_witness :
  ReconcileKind (source None) emptyWorld
  = ((mkCouchDbSource "orders-source" "default" "uid-1" (Spec (source None))
        ["InitializeConditions"; "MarkNoSink SinkMissing"],
      Some (PlainError "spec.sink missing")),
     emptyWorld,
     [StatusCall InitializeConditions; StatusCall (MarkNoSink "SinkMissing" "")]).
Proof. exact (ReconcileKind_no_sink (source None) emptyWorld eq_refl). Defined.

(** C6 (counterexample). A Source with no sink: the error returned is a plain
    one, which the caller retries. *)
Lemma ReconcileKind_no_sink_retried :
  Sink (Spec (source None)) = None ∧
  ∃ e, (ReconcileKind (source None) emptyWorld).1.1.2 = Some e ∧ ¬ nonRetryable (Some e).
Proof.
  split; [done|]. eexists. split; [by vm_compute|]. by intros [_ [=]].
Qed.

(** The sink of the Source and its reference are at location 1 of the heap. *)
Lemma sinkAllocated_worldWithBroker :
  sinkAllocated (heap worldWithBroker) (source (Some 1%positive)).
Proof.
  intros p [= <-]. split.
  - apply elem_of_dom. by eexists.
  - intros o [= <-]. apply elem_of_dom. by eexists.
Defined.

(** C7 at work: the reference of the sink has no namespace, and the sink is
    resolved in the namespace [default] of the Source. *)
Lemma ReconcileKind_sink_unchanged_witness :
  ∃ source' err w' t,
    ReconcileKind (source (Some 1%positive)) worldWithBroker = ((source', err), w', t) ∧
    Spec source' = Spec (source (Some 1%positive)) ∧
    readDest (heap w') 1%positive = readDest (heap worldWithBroker) 1%positive ∧
    ∃ rerr,
      ResolveCall
        (mkDestination
           (Some (mkObjectReference "Broker" "default" "default" "eventing.knative.dev/v1alpha1"))
           None "" "" "" "") rerr ∈ t.
Proof.
  destruct (ReconcileKind_sink_unchanged (source (Some 1%positive)) worldWithBroker
              sinkAllocated_worldWithBroker)
    as (source' & err & w' & t & Heq & Hspec & Hsink & _).
  destruct (Hsink 1%positive eq_refl) as (_ & Hread & rerr & Hin).
  exists source', err, w', t. split_and!; [exact Heq|exact Hspec|exact Hread|].
  exists rerr. exact Hin.
Defined.

(** C8 at work: the event types are not reconciled, the cluster refusing
    the delete of a stale record. *)
Lemma ReconcileKind_error_marks_condition_witness :
  Status (ReconcileKind (source (Some 1%positive)) worldFailingDelete).1.1.1
  = ["InitializeConditions"; "MarkSink http://default.default";
     "PropagateDeploymentAvailability"; "MarkNoEventTypes EventTypesReconcileFailed"]
  ∧ ∃ op, StatusCall op ∈ (ReconcileKind (source (Some 1%positive)) worldFailingDelete).2
          ∧ marksCondition op = true.
Proof.
  destruct (ReconcileKind_error_marks_condition (source (Some 1%positive)) worldFailingDelete
              (ReconcileKind (source (Some 1%positive)) worldFailingDelete).1.1.1
              (StatusError "Conflict" "the object has been modified")
              (ReconcileKind (source (Some 1%positive)) worldFailingDelete).1.2
              (ReconcileKind (source (Some 1%positive)) worldFailingDelete).2)
    as (Hstatus & Hmark & _).
  - vm_compute. reflexivity.
  - split; [|exact Hmark]. rewrite Hstatus. vm_compute. reflexivity.
Defined.

(** C8 (counterexample). The reconcile fails on a deployment that another
    object controls: the calls on the status all come before the deployment
    step, the sink is marked as resolved, and no call records the failure. *)
Lemma ReconcileKind_failure_not_recorded :
  (ReconcileKind (source (Some 1%positive)) worldWithConflict).1.1
  = (mkCouchDbSource "orders-source" "default" "uid-1" (Spec (source (Some 1%positive)))
       ["InitializeConditions"; "MarkSink http://default.default"],
     Some (PlainError ("deployment 'couchdbsource-orders-source' is not owned by "
                       +:+ "CouchDbSource 'orders-source'")))
  ∧ (ReconcileKind (source (Some 1%positive)) worldWithConflict).2
    = [StatusCall InitializeConditions;
       ResolveCall
         (mkDestination
            (Some (mkObjectReference "Broker" "default" "default"
                     "eventing.knative.dev/v1alpha1"))
            None "" "" "" "") None;
       StatusCall (MarkSink "http://default.default");
       SecretsGet "default" "couchdb-binding" None;
       DeploymentsGet "default" "couchdbsource-orders-source" None]
  ∧ ¬ ∃ op, StatusCall op ∈ (ReconcileKind (source (Some 1%positive)) worldWithConflict).2
            ∧ marksFailure op = true.
Proof.
  assert ((ReconcileKind (source (Some 1%positive)) worldWithConflict).2
          = [StatusCall InitializeConditions;
             ResolveCall
               (mkDestination
                  (Some (mkObjectReference "Broker" "default" "default"
                           "eventing.knative.dev/v1alpha1"))
                  None "" "" "" "") None;
             StatusCall (MarkSink "http://default.default");
             SecretsGet "default" "couchdb-binding" None;
             DeploymentsGet "default" "couchdbsource-orders-source" None]) as Ht
    by (vm_compute; reflexivity).
  split_and!; [by vm_compute|done|]. rewrite Ht. intros (op & Hin & Hop).
  destruct op; try discriminate Hop;
    repeat (apply elem_of_cons in Hin as [Hin|Hin]; [discriminate Hin|]);
    by apply elem_of_nil in Hin.
Qed.

(** When the deployment is not reconciled, the status methods called before
    the error is returned are those of the sink: the sink is marked as
    resolved, and no condition tells of the deployment. *)
Example ReconcileKind_conflict_status :
  (ReconcileKind (source (Some 1%positive)) worldWithConflict).1.1
  = (mkCouchDbSource "orders-source" "default" "uid-1" (Spec (source (Some 1%positive)))
       ["InitializeConditions"; "MarkSink http://default.default"],
     Some (PlainError ("deployment 'couchdbsource-orders-source' is not owned by "
                       +:+ "CouchDbSource 'orders-source'"))).
Proof. vm_compute. reflexivity. Qed.

(** ** More theorems at work on the in-memory cluster *)

Import FakeLister.

(** X1 at work: a stale record of the update type, and the delete type
    expected. *)
Lemma computeDiff_disjoint_keys_witness :
  computeDiff [staleUpdate] [desiredDelete] = ([desiredDelete], [staleUpdate]).
Proof.
  apply computeDiff_disjoint_keys.
  intros e ->%list_elem_of_singleton Hin. apply list_elem_of_singleton in Hin.
  vm_compute in Hin. discriminate Hin.
Defined.

(** X2 at work: the stale record is replaced and the delete type is added. *)
Lemma computeDiff_converges_witness :
  computeDiff
    (applyDiff [staleUpdate]
       (computeDiff [staleUpdate] [desiredUpdate; desiredDelete]).1
       (computeDiff [staleUpdate] [desiredUpdate; desiredDelete]).2)
    [desiredUpdate; desiredDelete]
  = ([], []).
Proof.
  apply computeDiff_converges.
  - apply (bool_decide_unpack _). vm_compute. exact I.
  - apply (bool_decide_unpack _). vm_compute. exact I.
Defined.

(** X4 at work: two records of one four-tuple with different descriptions. *)
Lemma keyFromEventType_injective_witness :
  Type_ (etSpec staleUpdate) = Type_ (etSpec currentUpdate) ∧
  Source_ (etSpec staleUpdate) = Source_ (etSpec currentUpdate) ∧
  Schema (etSpec staleUpdate) = Schema (etSpec currentUpdate) ∧
  Broker (etSpec staleUpdate) = Broker (etSpec currentUpdate).
Proof.
  apply keyFromEventType_injective.
  - by vm_compute.
  - by vm_compute.
  - reflexivity.
Defined.

(** X9 at work: the secret of the credentials does not exist. *)
Lemma createReceiveAdapter_no_event_source_witness :
  createReceiveAdapter (source (Some 1%positive)) sinkURI worldWithoutSecret
  = ((None, Some (notFound "secret")), worldWithoutSecret,
     [SecretsGet "default" "couchdb-binding" (Some (notFound "secret"))]).
Proof.
  apply (createReceiveAdapter_no_event_source _ _ _ "").
  vm_compute. reflexivity.
Defined.

(** X10 at work: the deployments of the cluster cannot be read. *)
Lemma createReceiveAdapter_lookup_fails_witness :
  createReceiveAdapter (r := reconcilerDown) (source None) sinkURI worldDown
  = ((None,
      Some (PlainError ("error getting receive adapter: "
                        +:+ "the server is currently unable to handle the request"))),
     worldDown,
     [SecretsGet "default" "couchdb-binding" None;
      DeploymentsGet "default" "couchdbsource-orders-source" (Some unavailable)])
  ∧ writes [SecretsGet "default" "couchdb-binding" None;
            DeploymentsGet "default" "couchdbsource-orders-source" (Some unavailable)] = [].
Proof.
  refine (createReceiveAdapter_lookup_fails (r := reconcilerDown) (source None) sinkURI
            worldDown origin worldDown [SecretsGet "default" "couchdb-binding" None]
            unavailable (cluster worldDown) _ _ _); vm_compute; reflexivity.
Defined.

(** X11 at work: the cluster refuses the update of the drifted deployment,
    and no event is recorded. *)
Lemma createReceiveAdapter_update_outcome_witness :
  createReceiveAdapter (source None) sinkURI worldFailingUpdate
  = ((None, Some (StatusError "Conflict" "the object has been modified")),
     worldFailingUpdate,
     [SecretsGet "default" "couchdb-binding" None;
      DeploymentsGet "default" "couchdbsource-orders-source" None;
      DeploymentsUpdate "default"
        (mkDeployment "couchdbsource-orders-source" "default" (Some "uid-1") desiredPodSpec 1)
        (Some (StatusError "Conflict" "the object has been modified"))]).
Proof.
  refine (createReceiveAdapter_update_outcome (source None) sinkURI worldFailingUpdate origin
            worldFailingUpdate [SecretsGet "default" "couchdb-binding" None]
            driftedDeployment (cluster worldFailingUpdate) None
            (Some (StatusError "Conflict" "the object has been modified"))
            (cluster worldFailingUpdate) _ _ _ _ _); vm_compute; reflexivity.
Defined.

(** X12 at work: of the two listed event types one has another controller. *)
Lemma getEventTypes_owned_witness :
  getEventTypes (source (Some 1%positive)) worldWithStranger
  = ((filter (λ et, etController et = Some "uid-1") [staleUpdate; strangerType], None),
     worldWithStranger,
     [EventTypesList "default" (Labels "orders-source") None]).
Proof.
  refine (getEventTypes_owned (source (Some 1%positive)) worldWithStranger
            [staleUpdate; strangerType] (cluster worldWithStranger) _).
  vm_compute. reflexivity.
Defined.

(** X13 at work: a broker sink, and no secret to compute the event source
    from. *)
Lemma reconcileEventTypes_read_failure_witness :
  ∃ w' t,
    reconcileEventTypes (source (Some 1%positive)) worldWithoutSecret
    = (Some (notFound "secret"), w', t) ∧ writes t = [].
Proof.
  apply reconcileEventTypes_read_failure. right. split; vm_compute; reflexivity.
Defined.

(** X14 at work: the two expected records are in the cluster under other
    names. *)
Lemma reconcileEventTypes_steady_witness :
  reconcileEventTypes (source (Some 1%positive)) worldSteady
  = (None, worldSteady,
     [EventTypesList "default" (Labels "orders-source") None]
     ++ [SecretsGet "default" "couchdb-binding" None])
  ∧ writes ([EventTypesList "default" (Labels "orders-source") None]
            ++ [SecretsGet "default" "couchdb-binding" None]) = [].
Proof.
  refine (reconcileEventTypes_steady (source (Some 1%positive)) worldSteady
            [record "update-9" "update" origin "" "default" "";
             record "delete-9" "delete" origin "" "default" ""]
            worldSteady [EventTypesList "default" (Labels "orders-source") None]
            [record "update-orders-source" "update" origin "" "default" "";
             record "delete-orders-source" "delete" origin "" "default" ""]
            worldSteady [SecretsGet "default" "couchdb-binding" None] _ _ _ _ _).
  - vm_compute. reflexivity.
  - vm_compute. reflexivity.
  - apply (bool_decide_unpack _). vm_compute. exact I.
  - intros e [->|[->|?%elem_of_nil]%elem_of_cons]%elem_of_cons; [| |done].
    + eexists. split; [left|]. by split.
    + eexists. split; [right; left|]. by split.
  - intros c [->|[->|?%elem_of_nil]%elem_of_cons]%elem_of_cons; [| |done].
    + left.
    + right. left.
Defined.

(** X15 at work: a sink with neither a reference nor a URI. *)
Lemma ReconcileKind_sink_not_resolved_witness :
  (ReconcileKind (source (Some 1%positive)) worldUnresolved).1.1.2
  = Some (PlainError ("getting sink URI: " +:+ "destination missing Ref and URI"))
  ∧ (ReconcileKind (source (Some 1%positive)) worldUnresolved).2
    = [StatusCall InitializeConditions;
       ResolveCall (mkDestination None None "" "" "" "")
         (Some (PlainError "destination missing Ref and URI"));
       StatusCall (MarkNoSink "NotFound" "")].
Proof.
  rewrite (ReconcileKind_sink_not_resolved (source (Some 1%positive)) worldUnresolved
             1%positive (PlainError "destination missing Ref and URI")
             (cluster worldUnresolved) eq_refl); [|vm_compute; reflexivity].
  split; vm_compute; reflexivity.
Defined.

(** X18 at work: the sink has no deprecated field, and is marked without the
    warning. *)
Lemma ReconcileKind_sink_mark_witness :
  StatusCall (MarkSinkWarnRefDeprecated "http://default.default")
  ∉ (ReconcileKind (source (Some 1%positive)) worldWithBroker).2.
Proof.
  intros Hin.
  apply (proj1 (ReconcileKind_sink_mark (source (Some 1%positive)) worldWithBroker 1%positive
                  "http://default.default" eq_refl sinkAllocated_worldWithBroker)) in Hin.
  vm_compute in Hin. discriminate Hin.
Defined.

(** X19 at work: the deployment of the Source is listed after a deployment of
    another owner. *)
Lemma getReceiveAdapter_first_owned_witness :
  ∃ before after,
    deploymentsList (r := reconciler) "default" (Labels "orders-source") clusterWithOwned
    = (inl (before ++ ownedDeployment :: after), clusterWithOwned) ∧
    dController ownedDeployment = Some "uid-1" ∧
    Forall (λ d, dController d ≠ Some "uid-1") before.
Proof.
  apply (getReceiveAdapter_first_owned (r := reconciler) (source None) clusterWithOwned clusterWithOwned
           ownedDeployment).
  vm_compute. reflexivity.
Defined.

(** X20 at work: the only deployment listed has another owner. *)
Lemma getReceiveAdapter_not_found_witness :
  ∃ e, getReceiveAdapter (source None) clusterWithForeign = ((None, Some e), clusterWithForeign)
       ∧ IsNotFound (Some e) = true.
Proof.
  apply (getReceiveAdapter_not_found (r := reconciler) (source None) clusterWithForeign clusterWithForeign
           [foreignDeployment]).
  - vm_compute. reflexivity.
  - constructor; [|constructor]. by vm_compute.
Defined.
